(** * basic-algebra: run-length coding, Hamming codes and a toy key exchange

    A shallow embedding of the pure functions of three notebooks:
    - [08_encode_decode.ipynb]: [encode], [decode] (run-length coding);
    - the error-correction notebook: [calculate_parity_bits],
      [position_parity_bits], [calculate_parity_values],
      [detect_correct_error], [remove_parity_bits] (Hamming codes);
    - [10_diffie_hellman.ipynb]: [__produce_exchange_function],
      [generate_keys].

    Python values are modelled as follows.
    - [int] is [Z] (unbounded), [**] is [Z.pow] on non-negative exponents,
      [%] with a positive modulus is [Z.modulo], [&] and [^] are [Z.land]
      and [Z.lxor].
    - [str] is [list ascii]; a character is a code point below 256.
    - A call that may raise returns a [result]: [Ok v] or [Raise e].
    - [print] and the wall clock are not modelled; the clock reading is an
      input, and so is the state of the random generator.
    - Integers and strings are unbounded: the interpreter's limits on
      memory and on the length of a decimal numeral are not modelled. *)

From Stdlib Require Import ZArith List Ascii String Bool Lia Arith.
From Stdlib Require Import Zpow_facts DecimalString DecimalZ DecimalPos FinFun.
From Equations Require Import Equations.
Import ListNotations.

Local Open Scope Z_scope.

(** ** Python values and exceptions *)

Inductive exn : Type :=
| ValueError (msg : string)
| IndexError
| TypeError
| Exception (msg : string).

Inductive result (A : Type) : Type :=
| Ok (a : A)
| Raise (e : exn).

Arguments Ok {A} a.
Arguments Raise {A} e.

Definition bind {A B : Type} (r : result A) (k : A -> result B) : result B :=
  match r with
  | Ok a => k a
  | Raise e => Raise e
  end.

Notation "x <- r ;; k" := (bind r (fun x => k))
  (at level 61, r at next level, right associativity).

(** A [for] loop whose body may raise: the state is threaded through the
    elements from left to right and the first exception aborts the loop. *)
Fixpoint for_each {A S : Type} (body : S -> A -> result S) (items : list A) (s : S)
  : result S :=
  match items with
  | [] => Ok s
  | x :: rest => s' <- body s x ;; for_each body rest s'
  end.

(** [range(lo, hi)]: the integers [lo, lo+1, ..., hi-1]; empty when [hi <= lo]. *)
Definition range (lo hi : Z) : list Z :=
  map (fun k => lo + Z.of_nat k) (seq 0 (Z.to_nat (hi - lo))).

Abbreviation str := (list ascii).

Definition len (s : str) : Z := Z.of_nat (List.length s).

(** [s[i]] with Python's negative indices. *)
Definition getitem (s : str) (i : Z) : result ascii :=
  let i' := if i <? 0 then i + len s else i in
  if (0 <=? i') && (i' <? len s)
  then match nth_error s (Z.to_nat i') with
       | Some c => Ok c
       | None => Raise IndexError
       end
  else Raise IndexError.

(** A slice bound, clamped the way Python clamps it. *)
Definition clamp (s : str) (i : Z) : nat :=
  let i' := if i <? 0 then i + len s else i in
  Z.to_nat (Z.min (Z.max 0 i') (len s)).

(** [s[:i]] and [s[i:]]. *)
Definition slice_to (s : str) (i : Z) : str := firstn (clamp s i) s.
Definition slice_from (s : str) (i : Z) : str := skipn (clamp s i) s.

(** [str(z)] for an integer [z]: its decimal numeral. *)
Definition str_of_int (z : Z) : str :=
  list_ascii_of_string (NilZero.string_of_int (Z.to_int z)).

(** [int(s)] on the strings this program passes to it: a single character,
    or a non-empty run of characters accepted by [isdigit].  Only the
    decimal digits [0]..[9] are converted; anything else raises.  The
    interpreter also raises on a numeral of more than 4300 characters,
    which this function converts: it is what [int] computes on the
    numerals within that limit. *)
Definition int_of_str (s : str) : result Z :=
  match NilZero.uint_of_string (string_of_list_ascii s) with
  | Some u => Ok (Z.of_uint u)
  | None => Raise (ValueError "invalid literal for int()")
  end.

(** [c.isdigit()] for a character below code point 256: the decimal digits
    and the superscript digits (code points 178, 179 and 185). *)
Definition isdigit (c : ascii) : bool :=
  let n := N_of_ascii c in
  (((48 <=? n) && (n <=? 57)) || (n =? 178) || (n =? 179) || (n =? 185))%N.

Definition str_eqb (a b : str) : bool :=
  if list_eq_dec ascii_dec a b then true else false.

(** ** Run-length coding (08_encode_decode.ipynb) *)

Definition __encode_char_segment (char : str) (counter : Z) : str :=
  char ++ (if counter >? 1 then str_of_int counter else []).

(** One iteration of the loop of [encode]; the state is
    [(output, prev_char, counter)]. *)
Definition encode_step (st : str * str * Z) (c : ascii) : str * str * Z :=
  let '(output, prev_char, counter) := st in
  if str_eqb [c] prev_char
  then (output, prev_char, counter + 1)
  else (output ++ __encode_char_segment prev_char counter, [c], 1).

Definition encode (text : str) : str :=
  let '(output, prev_char, counter) := fold_left encode_step text ([], [], 0) in
  output ++ __encode_char_segment prev_char counter.

Definition __decode_char_segment (char counter : str) : result str :=
  counter <- (if str_eqb counter [] then Ok 1 else int_of_str counter) ;;
  Ok (List.concat (map (fun _ => char) (range 0 counter))).

(** One iteration of the loop of [decode]; the state is
    [(output, last_char, counter)], the counter being kept as text. *)
Definition decode_step (st : str * str * str) (c : ascii) : result (str * str * str) :=
  let '(output, last_char, counter) := st in
  if isdigit c
  then Ok (output, last_char, counter ++ [c])
  else seg <- __decode_char_segment last_char counter ;;
       Ok (output ++ seg, [c], []).

Definition decode (text : str) : result str :=
  st <- for_each decode_step text ([], [], []) ;;
  let '(output, last_char, counter) := st in
  seg <- __decode_char_segment last_char counter ;;
  Ok (output ++ seg).

(** ** Hamming code (error-correction notebook) *)

(** The exception of [calculate_parity_bits]. *)
Definition too_many : exn := ValueError "Too many parity bits required.".

(** The iterations left to the loop of [calculate_parity_bits] before its
    guard [p > 10] fires. *)
Definition iterations_left (p : Z) : nat := Z.to_nat (11 - p).
Arguments iterations_left : simpl never.

(** [calculate_parity_bits]: the [while] loop entered with the current [p].
    The loop leaves by [return] or by [raise] before [p] passes 11. *)
Equations? calculate_parity_bits_from (m p : Z) : result Z
  by wf (iterations_left p) lt :=
  calculate_parity_bits_from m p with Z_lt_dec (2 ^ p) (m + p + 1) => {
    | right _ => Ok p
    | left _ with Z_gt_dec (p + 1) 10 => {
        | left _ => Raise too_many
        | right Hle => calculate_parity_bits_from m (p + 1) } }.
Proof. unfold iterations_left. lia. Qed.

Definition calculate_parity_bits (m : Z) : result Z :=
  calculate_parity_bits_from m 0.

(** One iteration of the loop of [position_parity_bits]; the state is
    [(j, k, result)]. *)
Definition position_step (data : str) (st : Z * Z * str) (i : Z)
  : result (Z * Z * str) :=
  let '(j, k, result) := st in
  if i =? 2 ^ j
  then Ok (j + 1, k, result ++ ["0"%char])
  else c <- getitem data (- k) ;;
       Ok (j, k + 1, result ++ [c]).

Definition position_parity_bits (data : str) (p : Z) : result str :=
  let m := len data in
  st <- for_each (position_step data) (range 1 (m + p + 1)) (0, 1, []) ;;
  let '(_, _, result) := st in
  Ok (rev result).

(** The inner loop shared by [calculate_parity_values] and
    [detect_correct_error]: the XOR of [int(code[-j])] over the positions
    [j] of [1..n] with [j & 2**i == 2**i]. *)
Definition parity_step (code : str) (i : Z) (val j : Z) : result Z :=
  if Z.land j (2 ^ i) =? 2 ^ i
  then c <- getitem code (- j) ;;
       b <- int_of_str [c] ;;
       Ok (Z.lxor val b)
  else Ok val.

Definition parity_value (code : str) (n i : Z) : result Z :=
  for_each (parity_step code i) (range 1 (n + 1)) 0.

Definition calculate_parity_values (code : str) (p : Z) : result str :=
  let n := len code in
  for_each
    (fun code i =>
       val <- parity_value code n i ;;
       Ok (slice_to code (n - 2 ^ i) ++ str_of_int val
             ++ slice_from code (n - 2 ^ i + 1)))
    (range 0 p) code.

(** [code[:i] + str(1 - int(code[i])) + code[i+1:]], the expression used
    by [detect_correct_error] and by [add_noise]. *)
Definition flip_at (code : str) (i : Z) : result str :=
  c <- getitem code i ;;
  b <- int_of_str [c] ;;
  Ok (slice_to code i ++ str_of_int (1 - b) ++ slice_from code (i + 1)).

(** The first loop of [detect_correct_error]: the value of [error_pos]. *)
Definition error_position (code : str) (p : Z) : result Z :=
  let n := len code in
  for_each
    (fun error_pos i =>
       val <- parity_value code n i ;;
       Ok (error_pos + val * 2 ^ i))
    (range 0 p) 0.

Definition detect_correct_error (code : str) (p : Z) : result str :=
  let n := len code in
  error_pos <- error_position code p ;;
  if negb (error_pos =? 0)
  then flip_at code (n - error_pos)
  else Ok code.

Definition remove_parity_bits (code : str) (p : Z) : result str :=
  let parity_positions := map (fun i => 2 ^ i) (range 0 p) in
  let code_len := len code in
  let parity_positions := map (fun i => code_len - i) parity_positions in
  for_each
    (fun decoded i =>
       if existsb (Z.eqb i) parity_positions
       then Ok decoded
       else c <- getitem code i ;; Ok (decoded ++ [c]))
    (range 0 code_len) [].

(** [add_noise], with the position drawn by [random.randint(0, len(code)-1)]
    as an argument. *)
Definition add_noise (code : str) (noise_position : Z) : result str :=
  flip_at code noise_position.

(** ** Key exchange (10_diffie_hellman.ipynb) *)

Definition generator_default : Z := 3.
Definition prime_modulus_default : Z := 136279841.

(** [random.randint(a, b)] for integers [a <= b]; [entropy] stands for the
    generator's state: every value of [a..b] is returned for some entropy
    and nothing else is. *)
Definition randint (a b entropy : Z) : Z := a + entropy mod (b - a + 1).

(** [10**(num_of_digits-1)] is a float that is not an integer when
    [num_of_digits < 1], and [random.randint] then raises. *)
Definition __generate_random_number (num_of_digits entropy : Z) : result Z :=
  if num_of_digits <? 1
  then Raise TypeError
  else
    let range_start := 10 ^ (num_of_digits - 1) in
    let range_end := 10 ^ num_of_digits - 1 in
    Ok (randint range_start range_end entropy).

(** Defined for [power >= 0]; the private keys are positive. *)
Definition __produce_exchange_function (power generator prime_modulus : Z) : Z :=
  (generator ^ power) mod prime_modulus.

Definition different_public_keys : exn := Exception "Different public keys".

(** The last two statements of [generate_keys]: the check and the [return]. *)
Definition check_public_keys {T : Type}
  (a_private_key b_private_key a_output b_output a_public_key b_public_key : Z)
  (generation_time : T) : result (Z * Z * Z * Z * Z * T) :=
  if negb (a_public_key =? b_public_key)
  then Raise different_public_keys
  else Ok (a_private_key, b_private_key, a_output, b_output, a_public_key,
           generation_time).

(** [generate_keys]: [entropy_a] and [entropy_b] feed the two draws and
    [generation_time] is the elapsed time read from the clock. *)
Definition generate_keys {T : Type} (key_size entropy_a entropy_b : Z)
  (generation_time : T) : result (Z * Z * Z * Z * Z * T) :=
  a_private_key <- __generate_random_number key_size entropy_a ;;
  b_private_key <- __generate_random_number key_size entropy_b ;;
  let a_output :=
    __produce_exchange_function a_private_key generator_default prime_modulus_default in
  let b_output :=
    __produce_exchange_function b_private_key generator_default prime_modulus_default in
  let a_public_key :=
    __produce_exchange_function a_private_key b_output prime_modulus_default in
  let b_public_key :=
    __produce_exchange_function b_private_key a_output prime_modulus_default in
  check_public_keys a_private_key b_private_key a_output b_output
    a_public_key b_public_key generation_time.

(** ** Vocabulary of the statements *)

(** The decimal digits [0]..[9]. *)
Definition is_decimal (c : ascii) : bool :=
  ((48 <=? N_of_ascii c) && (N_of_ascii c <=? 57))%N.

(** A string literal as a [str]. *)
Definition lit (t : string) : str := list_ascii_of_string t.

(** An encoded text as the spec describes it: a sequence of segments, each
    a non-digit symbol followed by zero or more digits. *)
Definition segment_ok (seg : ascii * str) : bool :=
  negb (isdigit (fst seg)) && forallb isdigit (snd seg).

Definition join_segments (segs : list (ascii * str)) : str :=
  List.concat (map (fun seg => fst seg :: snd seg) segs).

Definition valid_encoded (e : str) : Prop :=
  exists segs, forallb segment_ok segs = true /\ e = join_segments segs.

(** A run-length description: symbols with their counts.  It is canonical
    when no symbol is a digit, every count is at least 1 and neighbouring
    runs carry different symbols. *)
Definition head_differs (c : ascii) (runs : list (ascii * Z)) : bool :=
  match runs with
  | [] => true
  | (d, _) :: _ => negb (Ascii.eqb c d)
  end.

Fixpoint canonical (runs : list (ascii * Z)) : bool :=
  match runs with
  | [] => true
  | (c, n) :: rest =>
      negb (isdigit c) && (1 <=? n) && head_differs c rest && canonical rest
  end.

Definition no_digit (s : str) : bool := forallb (fun c => negb (isdigit c)) s.

(** The text of a run-length description: each symbol followed by the
    decimal numeral of its count when the count exceeds 1. *)
Definition render (runs : list (ascii * Z)) : str :=
  List.concat (map (fun r => __encode_char_segment [fst r] (snd r)) runs).

(** The text a run-length description stands for. *)
Definition expand (runs : list (ascii * Z)) : str :=
  List.concat (map (fun r => repeat (fst r) (Z.to_nat (snd r))) runs).

Definition canonical_encoded (e : str) : Prop :=
  exists runs, canonical runs = true /\ e = render runs.

(** A bit string: every character is [0] or [1]. *)
Definition is_bit (c : ascii) : bool := Ascii.eqb c "0" || Ascii.eqb c "1".
Definition bit_string (code : str) : bool := forallb is_bit code.

(** The character at position [j], positions counted from 1 at the right:
    [code[-j]]. *)
Definition char_at (code : str) (j : Z) : ascii :=
  nth (Z.to_nat (len code - j)) code "0"%char.

Definition bit_of (c : ascii) : Z := if Ascii.eqb c "1" then 1 else 0.
Definition bit_at (code : str) (j : Z) : Z := bit_of (char_at code j).

(** [code] with the character at index [k] replaced by [v]. *)
Definition replace_at (code : str) (k : nat) (v : ascii) : str :=
  firstn k code ++ v :: skipn (S k) code.

Definition char_of_bit (v : Z) : ascii := if v =? 1 then "1"%char else "0"%char.

Definition flip_char (c : ascii) : ascii :=
  if Ascii.eqb c "1" then "0"%char else "1"%char.

(** Position [j] takes part in parity [i]: bit [i] of [j] is set. *)
Definition covers (i j : Z) : bool := Z.land j (2 ^ i) =? 2 ^ i.

(** The XOR of the bits [bits j] over the positions [j] of [js] that parity
    [i] covers. *)
Fixpoint xor_bits (bits : Z -> Z) (i : Z) (js : list Z) : Z :=
  match js with
  | [] => 0
  | j :: rest =>
      Z.lxor (if covers i j then bits j else 0) (xor_bits bits i rest)
  end.

(** The XOR of all the bits of [code] whose position has bit [i] set. *)
Definition parity_sum (code : str) (i : Z) : Z :=
  xor_bits (bit_at code) i (range 1 (len code + 1)).

(** The value of [error_pos] after the first [k] parities. *)
Fixpoint syndrome (code : str) (k : nat) : Z :=
  match k with
  | O => 0
  | S k' => syndrome code k' + parity_sum code (Z.of_nat k') * 2 ^ Z.of_nat k'
  end.

Definition is_power_of_two (j : Z) : bool := j =? 2 ^ Z.log2 j.

(** The elements of [l] whose position satisfies [keep], the head of [l]
    being at position [j] and positions growing along the list. *)
Fixpoint select {A : Type} (keep : Z -> bool) (j : Z) (l : list A) : list A :=
  match l with
  | [] => []
  | x :: rest =>
      if keep j then x :: select keep (j + 1) rest
      else select keep (j + 1) rest
  end.

(** The characters of [code] at the positions that are not powers of two,
    read from left to right. *)
Definition is_data_position (j : Z) : bool := negb (is_power_of_two j).

Definition data_of (code : str) : str :=
  rev (select is_data_position 1 (rev code)).

(** [encode] and [decode] resumed in the middle of their loops, with an
    empty output: what remains to be appended for the rest of the text. *)
Definition encode_from (text prev_char : str) (counter : Z) : str :=
  let '(output, prev_char, counter) :=
    fold_left encode_step text ([], prev_char, counter) in
  output ++ __encode_char_segment prev_char counter.

Definition decode_from (text last_char counter : str) : result str :=
  st <- for_each decode_step text ([], last_char, counter) ;;
  let '(output, last_char, counter) := st in
  seg <- __decode_char_segment last_char counter ;;
  Ok (output ++ seg).

(** A text that is empty or begins with a symbol, not with a digit. *)
Definition starts_with_symbol (t : str) : bool :=
  match t with
  | [] => true
  | c :: _ => negb (isdigit c)
  end.

(** The exception of [int]. *)
Definition invalid_literal : exn := ValueError "invalid literal for int()".

(** The interpreter of the notebooks refuses to convert a numeral of more
    than 4300 characters; [int_of_str] converts it.  Statements about what
    [decode] returns are made for texts within this limit. *)
Definition max_str_digits : Z := 4300.

(** Every run of [isdigit] characters of the text, which is what [decode]
    gathers in its counter, has at most [max_str_digits] characters; [run]
    is the length of the run that the text continues. *)
Fixpoint digit_runs_within (run : Z) (t : str) : bool :=
  match t with
  | [] => true
  | c :: rest =>
      if isdigit c
      then (run + 1 <=? max_str_digits) && digit_runs_within (run + 1) rest
      else digit_runs_within 0 rest
  end.

Definition digit_runs_bounded (t : str) : bool := digit_runs_within 0 t.

(** A character that [isdigit] accepts and [int] rejects. *)
Definition non_decimal_digit (c : ascii) : bool :=
  isdigit c && negb (is_decimal c).

(** The eavesdropper of the key-exchange notebook.  [exchange_func] is the
    callable it is given: its second argument is the optional [generator],
    [None] when the call leaves it to its default. *)
Record EavesdropData : Type := {
  exchange_func : Z -> option Z -> Z;
  a_output : Z;
  b_output : Z;
  public_key : Z
}.

(** [__produce_exchange_function] passed as a callable, with its default
    arguments. *)
Definition exchange_callable (power : Z) (generator : option Z) : Z :=
  __produce_exchange_function power
    (match generator with Some g => g | None => generator_default end)
    prime_modulus_default.

(** The test of the outer loop of [derive_private_keys] and the test of its
    inner loop: two nested [if]s each. *)
Definition a_candidate_ok (self : EavesdropData) (a_pk_candidate : Z) : bool :=
  (exchange_func self a_pk_candidate None =? a_output self)
  && (exchange_func self a_pk_candidate (Some (b_output self)) =? public_key self).

Definition b_candidate_ok (self : EavesdropData) (b_pk_candidate : Z) : bool :=
  (exchange_func self b_pk_candidate None =? b_output self)
  && (exchange_func self b_pk_candidate (Some (a_output self)) =? public_key self).

(** [derive_private_keys]: each loop runs over [range(1, 1000000)] and
    leaves by [break] at the first candidate that passes its test.  The
    result is the pair of candidates printed in the message, [None] when
    nothing is printed; the time measurement is not modelled. *)
Definition derive_private_keys (self : EavesdropData) : option (Z * Z) :=
  match find (a_candidate_ok self) (range 1 1000000) with
  | Some a_pk_candidate =>
      match find (b_candidate_ok self) (range 1 1000000) with
      | Some b_pk_candidate => Some (a_pk_candidate, b_pk_candidate)
      | None => None
      end
  | None => None
  end.

(** * Theorems *)

(** ** Number of parity bits *)

(** What the loop entered at [p0] returns: the first [p >= p0] with
    [2^p >= m + p + 1]. *)
Lemma calculate_parity_bits_from_ok (m p0 p : Z) :
  calculate_parity_bits_from m p0 = Ok p ->
  p0 <= p /\ m + p + 1 <= 2 ^ p /\
  (forall q, p0 <= q < p -> 2 ^ q < m + q + 1).
Proof.
  funelim (calculate_parity_bits_from m p0); intros Hr.
  - injection Hr as <-. repeat split; try lia.
  - discriminate.
  - match goal with IH : forall _, _ -> _ <= _ /\ _ |- _ =>
      destruct (IH _ Hr) as (H1 & H2 & H3) end.
    repeat split; try lia.
    intros q Hq. destruct (Z.eq_dec q p) as [->|]; [lia|apply H3; lia].
Qed.

(** The loop entered at [p0 <= 10] raises exactly when no [p] of [p0..10]
    ends it, and what it raises is the [ValueError] of the source. *)
Lemma calculate_parity_bits_from_raise (m p0 : Z) (e : exn) :
  p0 <= 10 ->
  calculate_parity_bits_from m p0 = Raise e <->
  e = too_many /\ forall q, p0 <= q <= 10 -> 2 ^ q < m + q + 1.
Proof.
  funelim (calculate_parity_bits_from m p0); intros Hp.
  - split; [discriminate|]. intros [_ Hall]. specialize (Hall p). lia.
  - split.
    + intros Hr. injection Hr as <-. split; [reflexivity|].
      intros q Hq. replace q with p by lia. assumption.
    + intros [-> _]. reflexivity.
  - match goal with IH : forall _, _ -> _ <-> _ |- _ =>
      rewrite (IH e) by lia end.
    split; intros [He Hall]; (split; [exact He|]); intros q Hq.
    + destruct (Z.eq_dec q p) as [->|]; [lia|apply Hall; lia].
    + apply Hall; lia.
Qed.

Lemma pow2_small (q : Z) : 0 <= q <= 10 -> 2 ^ q - q - 1 <= 1013.
Proof.
  intros Hq.
  assert (Hc : q = 0 \/ q = 1 \/ q = 2 \/ q = 3 \/ q = 4 \/ q = 5 \/ q = 6
               \/ q = 7 \/ q = 8 \/ q = 9 \/ q = 10) by lia.
  repeat (destruct Hc as [->|Hc]; [vm_compute; discriminate|]).
  subst q. vm_compute. discriminate.
Qed.

(** C6. When [calculate_parity_bits m] returns [p], this [p] is the least
    non-negative integer with [2^p >= m + p + 1]; and
    [calculate_parity_bits 4] returns 3. *)
Theorem calculate_parity_bits_minimal :
  (forall m p : Z,
      calculate_parity_bits m = Ok p ->
      0 <= p /\ 2 ^ p >= m + p + 1 /\
      (forall q, 0 <= q -> 2 ^ q >= m + q + 1 -> p <= q)) /\
  calculate_parity_bits 4 = Ok 3.
Proof.
  split; [|reflexivity].
  intros m p Hr. apply calculate_parity_bits_from_ok in Hr.
  destruct Hr as (H0 & H1 & H2). repeat split; try lia.
  intros q Hq Hge. destruct (Z_lt_dec q p) as [Hlt|]; [|lia].
  specialize (H2 q). lia.
Qed.

Lemma calculate_parity_bits_minimal_witness :
  calculate_parity_bits 4 = Ok 3 /\
  (0 <= 3 /\ 2 ^ 3 >= 4 + 3 + 1 /\
   (forall q, 0 <= q -> 2 ^ q >= 4 + q + 1 -> 3 <= q)).
Proof.
  split; [reflexivity|].
  apply (proj1 calculate_parity_bits_minimal 4 3). reflexivity.
Defined.

(** C7. [calculate_parity_bits m] raises its [ValueError] exactly when no
    [p <= 10] satisfies [2^p >= m + p + 1], which is exactly when
    [m >= 1014]; for [m <= 1013] it returns. *)
Theorem calculate_parity_bits_raises (m : Z) :
  (forall e, calculate_parity_bits m = Raise e -> e = too_many) /\
  (calculate_parity_bits m = Raise too_many <->
   forall p, 0 <= p <= 10 -> ~ 2 ^ p >= m + p + 1) /\
  (calculate_parity_bits m = Raise too_many <-> 1014 <= m) /\
  ((exists p, calculate_parity_bits m = Ok p) <-> m <= 1013).
Proof.
  unfold calculate_parity_bits.
  assert (Hraise : calculate_parity_bits_from m 0 = Raise too_many <->
                   forall p, 0 <= p <= 10 -> ~ 2 ^ p >= m + p + 1).
  { rewrite calculate_parity_bits_from_raise by lia. split.
    - intros [_ H] p Hp. specialize (H p Hp). lia.
    - intros H. split; [reflexivity|]. intros q Hq. specialize (H q Hq). lia. }
  assert (Hbound : (forall p, 0 <= p <= 10 -> ~ 2 ^ p >= m + p + 1) <-> 1014 <= m).
  { split.
    - intros H. specialize (H 10 ltac:(lia)). change (2 ^ 10) with 1024 in H. lia.
    - intros Hm p Hp. pose proof (pow2_small p Hp). lia. }
  split; [|split; [exact Hraise|split]].
  - intros e He. apply calculate_parity_bits_from_raise in He; [tauto|lia].
  - rewrite Hraise. exact Hbound.
  - split.
    + intros [p Hp]. destruct (Z_le_dec m 1013) as [|Hn]; [assumption|].
      assert (Hr : calculate_parity_bits_from m 0 = Raise too_many).
      { apply Hraise, Hbound. lia. }
      congruence.
    + intros Hm. destruct (calculate_parity_bits_from m 0) as [p|e] eqn:E.
      * eauto.
      * apply calculate_parity_bits_from_raise in E; [|lia].
        destruct E as [-> E]. specialize (E 10 ltac:(lia)).
        change (2 ^ 10) with 1024 in E. lia.
Qed.

(** ** Key exchange *)

(** Both parties reach [g^(a*b) mod n], for any base and positive modulus. *)
Lemma exchange_commutes (g n a b : Z) :
  0 < n -> 0 <= a -> 0 <= b ->
  __produce_exchange_function a (__produce_exchange_function b g n) n =
  __produce_exchange_function b (__produce_exchange_function a g n) n.
Proof.
  intros Hn Ha Hb. unfold __produce_exchange_function.
  rewrite <- !Zpower_mod by assumption.
  rewrite <- !Z.pow_mul_r by assumption.
  f_equal. f_equal. lia.
Qed.

(** Every key the generator returns has exactly [num_of_digits] digits. *)
Lemma generated_key_range (num_of_digits entropy key : Z) :
  __generate_random_number num_of_digits entropy = Ok key ->
  1 <= num_of_digits /\
  10 ^ (num_of_digits - 1) <= key <= 10 ^ num_of_digits - 1.
Proof.
  unfold __generate_random_number, randint.
  destruct (num_of_digits <? 1) eqn:E; [discriminate|].
  intros Hk. injection Hk as <-. apply Z.ltb_ge in E.
  assert (H1 : 0 < 10 ^ (num_of_digits - 1)) by (apply Z.pow_pos_nonneg; lia).
  assert (H2 : 10 ^ num_of_digits = 10 * 10 ^ (num_of_digits - 1)).
  { replace num_of_digits with (Z.succ (num_of_digits - 1)) at 1 by lia.
    apply Z.pow_succ_r. lia. }
  pose proof (Z.mod_pos_bound entropy
                (10 ^ num_of_digits - 1 - 10 ^ (num_of_digits - 1) + 1)
                ltac:(lia)).
  lia.
Qed.

Lemma generated_key_some (num_of_digits entropy : Z) :
  1 <= num_of_digits ->
  exists key, __generate_random_number num_of_digits entropy = Ok key.
Proof.
  intros H. unfold __generate_random_number.
  destruct (num_of_digits <? 1) eqn:E; [apply Z.ltb_lt in E; lia|eauto].
Qed.

(** C2. For positive private exponents [a] and [b], the two public keys
    that [generate_keys] derives with base 3 and modulus 136279841 are
    equal. *)
Theorem public_keys_agree (a_private_key b_private_key : Z) :
  0 < a_private_key -> 0 < b_private_key ->
  let a_output :=
    __produce_exchange_function a_private_key generator_default prime_modulus_default in
  let b_output :=
    __produce_exchange_function b_private_key generator_default prime_modulus_default in
  let a_public_key :=
    __produce_exchange_function a_private_key b_output prime_modulus_default in
  let b_public_key :=
    __produce_exchange_function b_private_key a_output prime_modulus_default in
  a_public_key = b_public_key.
Proof.
  intros Ha Hb. cbv zeta.
  apply exchange_commutes; [reflexivity|lia|lia].
Qed.

(** The run printed in the notebook: private keys 32 and 96. *)
Lemma public_keys_agree_witness :
  __produce_exchange_function 32
    (__produce_exchange_function 96 generator_default prime_modulus_default)
    prime_modulus_default =
  __produce_exchange_function 96
    (__produce_exchange_function 32 generator_default prime_modulus_default)
    prime_modulus_default.
Proof.
  apply (public_keys_agree 32 96); reflexivity.
Defined.

Example notebook_run :
  generate_keys 2 22 86 tt = Ok (32, 96, 23201871, 38718244, 11973219, tt).
Proof. vm_compute. reflexivity. Qed.

(** C8 as stated fails: with [key_size = 0] the call raises although no
    public keys disagree, and no tuple is returned. *)
Lemma generate_keys_zero_digits :
  generate_keys 0 0 0 tt = Raise TypeError /\
  ~ (forall key_size entropy_a entropy_b : Z,
        exists keys, generate_keys key_size entropy_a entropy_b tt = Ok keys).
Proof.
  split; [reflexivity|].
  intros H. destruct (H 0 0 0) as [keys Hk]. discriminate Hk.
Qed.

(** C8, amended. The final check raises exactly when the two public keys
    differ, and then nothing is returned; [generate_keys] never raises that
    exception; and for every [key_size >= 1] it returns its 6-tuple. *)
Theorem generate_keys_returns (T : Type) (key_size entropy_a entropy_b : Z)
  (generation_time : T) :
  (forall a b a_output b_output a_public_key b_public_key : Z,
      (check_public_keys a b a_output b_output a_public_key b_public_key
         generation_time = Raise different_public_keys
       <-> a_public_key <> b_public_key) /\
      (a_public_key = b_public_key ->
       check_public_keys a b a_output b_output a_public_key b_public_key
         generation_time
       = Ok (a, b, a_output, b_output, a_public_key, generation_time))) /\
  generate_keys key_size entropy_a entropy_b generation_time
    <> Raise different_public_keys /\
  (1 <= key_size ->
   exists a b : Z,
     __generate_random_number key_size entropy_a = Ok a /\
     __generate_random_number key_size entropy_b = Ok b /\
     generate_keys key_size entropy_a entropy_b generation_time =
     Ok (a, b,
         __produce_exchange_function a generator_default prime_modulus_default,
         __produce_exchange_function b generator_default prime_modulus_default,
         __produce_exchange_function a
           (__produce_exchange_function b generator_default prime_modulus_default)
           prime_modulus_default,
         generation_time)).
Proof.
  assert (Hcheck : forall a b a_output b_output a_public_key b_public_key : Z,
      (check_public_keys a b a_output b_output a_public_key b_public_key
         generation_time = Raise different_public_keys
       <-> a_public_key <> b_public_key) /\
      (a_public_key = b_public_key ->
       check_public_keys a b a_output b_output a_public_key b_public_key
         generation_time
       = Ok (a, b, a_output, b_output, a_public_key, generation_time))).
  { intros a b ao bo ak bk. unfold check_public_keys.
    destruct (ak =? bk) eqn:E; simpl.
    - apply Z.eqb_eq in E. split; [|reflexivity].
      split; [discriminate|]. intros Hne. contradiction.
    - apply Z.eqb_neq in E. split; [|intros Heq; contradiction].
      split; [intros _; exact E|reflexivity]. }
  assert (Hrun : forall a b,
      __generate_random_number key_size entropy_a = Ok a ->
      __generate_random_number key_size entropy_b = Ok b ->
      generate_keys key_size entropy_a entropy_b generation_time =
      Ok (a, b,
          __produce_exchange_function a generator_default prime_modulus_default,
          __produce_exchange_function b generator_default prime_modulus_default,
          __produce_exchange_function a
            (__produce_exchange_function b generator_default prime_modulus_default)
            prime_modulus_default,
          generation_time)).
  { intros a b Ha Hb. unfold generate_keys. rewrite Ha, Hb. simpl.
    apply Hcheck.
    apply generated_key_range in Ha. apply generated_key_range in Hb.
    assert (0 < 10 ^ (key_size - 1)) by (apply Z.pow_pos_nonneg; lia).
    apply exchange_commutes; [reflexivity|lia|lia]. }
  split; [exact Hcheck|split].
  - destruct (__generate_random_number key_size entropy_a) as [a|e] eqn:Ha.
    + destruct (__generate_random_number key_size entropy_b) as [b|e] eqn:Hb.
      * rewrite (Hrun a b eq_refl eq_refl). discriminate.
      * unfold generate_keys. rewrite Ha, Hb. simpl.
        unfold __generate_random_number in Hb.
        destruct (key_size <? 1); [injection Hb as <-|]; discriminate.
    + unfold generate_keys. rewrite Ha. simpl.
      unfold __generate_random_number in Ha.
      destruct (key_size <? 1); [injection Ha as <-|]; discriminate.
  - intros Hk.
    destruct (generated_key_some key_size entropy_a Hk) as [a Ha].
    destruct (generated_key_some key_size entropy_b Hk) as [b Hb].
    exists a, b. split; [exact Ha|split; [exact Hb|]].
    apply Hrun; assumption.
Qed.

Lemma generate_keys_returns_witness :
  exists a b : Z,
    __generate_random_number 2 22 = Ok a /\
    __generate_random_number 2 86 = Ok b /\
    generate_keys 2 22 86 tt =
    Ok (a, b,
        __produce_exchange_function a generator_default prime_modulus_default,
        __produce_exchange_function b generator_default prime_modulus_default,
        __produce_exchange_function a
          (__produce_exchange_function b generator_default prime_modulus_default)
          prime_modulus_default,
        tt).
Proof.
  apply (proj2 (proj2 (generate_keys_returns unit 2 22 86 tt))). lia.
Defined.

(** ** Run-length coding: the tests of the notebook *)

(** C9. [encode("AABCCCDEEEE") == "A2BC3DE4"] and
    [decode("A2BC3DE4") == "AABCCCDEEEE"]. *)
Theorem encode_decode_example :
  encode (lit "AABCCCDEEEE") = lit "A2BC3DE4" /\
  decode (lit "A2BC3DE4") = Ok (lit "AABCCCDEEEE").
Proof. split; vm_compute; reflexivity. Qed.

(** ** Decimal numerals *)

Lemma is_decimal_isdigit (c : ascii) : is_decimal c = true -> isdigit c = true.
Proof.
  unfold is_decimal, isdigit. intros ->. reflexivity.
Qed.

Lemma string_of_uint_decimal (u : Decimal.uint) :
  forallb is_decimal (list_ascii_of_string (NilEmpty.string_of_uint u)) = true.
Proof.
  induction u; simpl; try rewrite IHu; reflexivity.
Qed.

Lemma str_of_int_nonneg (n : Z) :
  0 <= n ->
  exists u, u <> Decimal.Nil /\ Z.of_uint u = n /\
            str_of_int n = list_ascii_of_string (NilEmpty.string_of_uint u).
Proof.
  intros Hn. unfold str_of_int. destruct n as [|p|p]; [| |lia].
  - exists (Decimal.D0 Decimal.Nil). repeat split. discriminate.
  - exists (Pos.to_uint p). simpl.
    assert (Hnil : Pos.to_uint p <> Decimal.Nil).
    { intros E. pose proof (DecimalPos.Unsigned.of_to p) as H.
      rewrite E in H. discriminate H. }
    repeat split.
    + exact Hnil.
    + unfold Z.of_uint. rewrite DecimalPos.Unsigned.of_to. reflexivity.
    + unfold NilZero.string_of_uint.
      destruct (Pos.to_uint p); [contradiction|reflexivity..].
Qed.

Lemma str_of_int_digits (n : Z) :
  0 <= n -> forallb isdigit (str_of_int n) = true.
Proof.
  intros Hn. destruct (str_of_int_nonneg n Hn) as (u & _ & _ & ->).
  pose proof (string_of_uint_decimal u) as H.
  rewrite forallb_forall in H |- *.
  intros c Hc. apply is_decimal_isdigit, H, Hc.
Qed.

Lemma str_of_int_nonempty (n : Z) : 0 <= n -> str_of_int n <> [].
Proof.
  intros Hn. destruct (str_of_int_nonneg n Hn) as (u & Hu & _ & ->).
  destruct u; [contradiction|discriminate..].
Qed.

Lemma int_of_str_of_int (n : Z) : 0 <= n -> int_of_str (str_of_int n) = Ok n.
Proof.
  intros Hn. destruct (str_of_int_nonneg n Hn) as (u & Hu & Hv & ->).
  unfold int_of_str. rewrite string_of_list_ascii_of_string.
  replace (NilEmpty.string_of_uint u) with (NilZero.string_of_uint u)
    by (destruct u; [contradiction|reflexivity..]).
  rewrite NilZero.usu by exact Hu. rewrite Hv. reflexivity.
Qed.

(** ** Run-length coding: the two loops *)

Lemma range_0_repeat {A : Type} (x : A) (n : Z) :
  map (fun _ => x) (range 0 n) = repeat x (Z.to_nat n).
Proof.
  unfold range. rewrite Z.sub_0_r, map_map.
  generalize 0%nat. induction (Z.to_nat n) as [|k IH]; intros a; simpl.
  - reflexivity.
  - rewrite IH. reflexivity.
Qed.

Lemma concat_repeat_singleton {A : Type} (x : A) (k : nat) :
  List.concat (repeat [x] k) = repeat x k.
Proof.
  induction k as [|k IH]; simpl; [reflexivity|rewrite IH; reflexivity].
Qed.

Lemma decode_char_segment_empty : __decode_char_segment [] [] = Ok [].
Proof. reflexivity. Qed.

Lemma decode_char_segment_one (c : ascii) : __decode_char_segment [c] [] = Ok [c].
Proof. reflexivity. Qed.

Lemma decode_char_segment_count (c : ascii) (n : Z) :
  0 <= n ->
  __decode_char_segment [c] (str_of_int n) = Ok (repeat c (Z.to_nat n)).
Proof.
  intros Hn. unfold __decode_char_segment.
  destruct (str_eqb (str_of_int n) []) eqn:E.
  - unfold str_eqb in E. destruct (list_eq_dec ascii_dec (str_of_int n) []) as [H|]; [|discriminate].
    apply str_of_int_nonempty in H; [contradiction|assumption].
  - rewrite int_of_str_of_int by assumption. cbn [bind].
    rewrite range_0_repeat. f_equal. apply concat_repeat_singleton.
Qed.

(** The output of [decode] is only ever appended to. *)
Lemma decode_loop_output (t output last_char counter : str) :
  for_each decode_step t (output, last_char, counter) =
  (st <- for_each decode_step t ([], last_char, counter) ;;
   let '(o, l, c) := st in Ok (output ++ o, l, c)).
Proof.
  revert output last_char counter.
  induction t as [|d t IH]; intros output last_char counter;
    cbn [for_each bind decode_step].
  - rewrite app_nil_r. reflexivity.
  - destruct (isdigit d); cbn [bind].
    + apply IH.
    + destruct (__decode_char_segment last_char counter) as [seg|e];
        cbn [bind app]; [|reflexivity].
      rewrite (IH (output ++ seg)), (IH seg).
      destruct (for_each decode_step t _) as [[[o l] c]|e];
        cbn [bind]; [|reflexivity].
      rewrite app_assoc. reflexivity.
Qed.

Lemma decode_from_digit (d : ascii) (t last_char counter : str) :
  isdigit d = true ->
  decode_from (d :: t) last_char counter = decode_from t last_char (counter ++ [d]).
Proof.
  intros Hd. unfold decode_from. cbn [for_each bind decode_step].
  rewrite Hd. reflexivity.
Qed.

Lemma decode_from_symbol (d : ascii) (t last_char counter : str) :
  isdigit d = false ->
  decode_from (d :: t) last_char counter =
  (seg <- __decode_char_segment last_char counter ;;
   r <- decode_from t [d] [] ;;
   Ok (seg ++ r)).
Proof.
  intros Hd. unfold decode_from. cbn [for_each bind decode_step]. rewrite Hd.
  destruct (__decode_char_segment last_char counter) as [seg|e];
    cbn [bind app]; [|reflexivity].
  rewrite decode_loop_output.
  destruct (for_each decode_step t _) as [[[o l] c]|e];
    cbn [bind]; [|reflexivity].
  destruct (__decode_char_segment l c) as [seg'|e]; cbn [bind]; [|reflexivity].
  rewrite app_assoc. reflexivity.
Qed.

Lemma decode_from_digits (ds t last_char counter : str) :
  forallb isdigit ds = true ->
  decode_from (ds ++ t) last_char counter = decode_from t last_char (counter ++ ds).
Proof.
  revert counter. induction ds as [|d ds IH]; intros counter Hds; simpl.
  - rewrite app_nil_r. reflexivity.
  - simpl in Hds. apply andb_true_iff in Hds as [Hd Hds].
    rewrite decode_from_digit by assumption. rewrite IH by assumption.
    rewrite <- app_assoc. reflexivity.
Qed.

Lemma decode_symbol_first (c : ascii) (t : str) :
  isdigit c = false -> decode (c :: t) = decode_from t [c] [].
Proof.
  intros Hc. change (decode (c :: t)) with (decode_from (c :: t) [] []).
  rewrite decode_from_symbol by assumption.
  rewrite decode_char_segment_empty. cbn [bind].
  destruct (decode_from t [c] []); reflexivity.
Qed.

(** Decoding one rendered run: the symbol, repeated; then the rest. *)
Lemma decode_segment (c : ascii) (n : Z) (t : str) :
  isdigit c = false -> 1 <= n -> starts_with_symbol t = true ->
  decode (__encode_char_segment [c] n ++ t) =
  (r <- decode t ;; Ok (repeat c (Z.to_nat n) ++ r)).
Proof.
  intros Hc Hn Ht. unfold __encode_char_segment. cbn [app].
  rewrite decode_symbol_first by assumption.
  assert (Hseg : __decode_char_segment [c] (if n >? 1 then str_of_int n else [])
                 = Ok (repeat c (Z.to_nat n))).
  { destruct (n >? 1) eqn:E.
    - apply decode_char_segment_count. lia.
    - assert (n = 1) by lia. subst n. reflexivity. }
  rewrite decode_from_digits.
  2:{ destruct (n >? 1); [apply str_of_int_digits; lia|reflexivity]. }
  cbn [app]. destruct t as [|d t].
  - unfold decode_from. cbn [for_each bind]. rewrite Hseg.
    replace (decode []) with (@Ok str []) by reflexivity.
    cbn [bind app]. rewrite app_nil_r. reflexivity.
  - simpl in Ht. apply negb_true_iff in Ht.
    rewrite decode_from_symbol by assumption. rewrite Hseg. cbn [bind].
    rewrite decode_symbol_first by assumption. reflexivity.
Qed.

(** The output of [encode] is only ever appended to. *)
Lemma encode_loop_output (t output prev_char : str) (counter : Z) :
  fold_left encode_step t (output, prev_char, counter) =
  let '(o, p, c) := fold_left encode_step t ([], prev_char, counter) in
  (output ++ o, p, c).
Proof.
  revert output prev_char counter.
  induction t as [|d t IH]; intros output prev_char counter;
    cbn [fold_left encode_step].
  - rewrite app_nil_r. reflexivity.
  - destruct (str_eqb [d] prev_char).
    + apply IH.
    + rewrite (IH (output ++ _)), (IH ([] ++ _)).
      destruct (fold_left encode_step t _) as [[o p] c].
      cbn [app]. rewrite app_assoc. reflexivity.
Qed.

Lemma str_eqb_refl (a : str) : str_eqb a a = true.
Proof.
  unfold str_eqb. destruct (list_eq_dec ascii_dec a a); [reflexivity|contradiction].
Qed.

Lemma str_eqb_neq (a b : str) : a <> b -> str_eqb a b = false.
Proof.
  intros H. unfold str_eqb.
  destruct (list_eq_dec ascii_dec a b); [contradiction|reflexivity].
Qed.

Lemma encode_from_same (c : ascii) (t : str) (n : Z) :
  encode_from (c :: t) [c] n = encode_from t [c] (n + 1).
Proof.
  unfold encode_from. cbn [fold_left encode_step].
  rewrite str_eqb_refl. reflexivity.
Qed.

Lemma encode_from_diff (c : ascii) (t prev_char : str) (n : Z) :
  prev_char <> [c] ->
  encode_from (c :: t) prev_char n =
  __encode_char_segment prev_char n ++ encode_from t [c] 1.
Proof.
  intros H. unfold encode_from. cbn [fold_left encode_step].
  rewrite str_eqb_neq by congruence.
  rewrite encode_loop_output.
  destruct (fold_left encode_step t _) as [[o p] k].
  cbn [app]. rewrite app_assoc. reflexivity.
Qed.

Lemma encode_first (c : ascii) (t : str) : encode (c :: t) = encode_from t [c] 1.
Proof.
  change (encode (c :: t)) with (encode_from (c :: t) [] 0).
  rewrite encode_from_diff by discriminate. reflexivity.
Qed.

Lemma encode_from_repeat (c : ascii) (k : nat) (t : str) (n : Z) :
  encode_from (repeat c k ++ t) [c] n = encode_from t [c] (n + Z.of_nat k).
Proof.
  revert n. induction k as [|k IH]; intros n; cbn [repeat app].
  - f_equal. lia.
  - rewrite encode_from_same, IH. f_equal. lia.
Qed.

Lemma encode_from_head (c : ascii) (t : str) (n : Z) :
  exists x, encode_from t [c] n = c :: x.
Proof.
  revert c n. induction t as [|d t IH]; intros c n.
  - unfold encode_from, __encode_char_segment. cbn. eauto.
  - destruct (ascii_dec d c) as [->|Hd].
    + rewrite encode_from_same. apply IH.
    + rewrite encode_from_diff by congruence.
      unfold __encode_char_segment. cbn [app]. eauto.
Qed.

Lemma encode_from_starts_with_symbol (c : ascii) (t : str) (n : Z) :
  isdigit c = false -> starts_with_symbol (encode_from t [c] n) = true.
Proof.
  intros Hc. destruct (encode_from_head c t n) as [x ->].
  simpl. rewrite Hc. reflexivity.
Qed.

Lemma repeat_snoc {A : Type} (x : A) (k : nat) (l : list A) :
  repeat x k ++ x :: l = repeat x (S k) ++ l.
Proof.
  induction k as [|k IH]; simpl; [reflexivity|].
  f_equal. exact IH.
Qed.

(** Decoding what [encode] appends after it has counted [n] copies of [c]
    gives those copies back, followed by the rest of the text. *)
Lemma decode_encode_from (t : str) (c : ascii) (n : Z) :
  isdigit c = false -> no_digit t = true -> 1 <= n ->
  decode (encode_from t [c] n) = Ok (repeat c (Z.to_nat n) ++ t).
Proof.
  revert c n. induction t as [|d t IH]; intros c n Hc Ht Hn.
  - unfold encode_from. cbn [fold_left app].
    rewrite <- (app_nil_r (__encode_char_segment [c] n)).
    rewrite decode_segment by (assumption || reflexivity).
    reflexivity.
  - simpl in Ht. apply andb_true_iff in Ht as [Hd Ht]. apply negb_true_iff in Hd.
    destruct (ascii_dec d c) as [->|Hdc].
    + rewrite encode_from_same, IH by (assumption || lia).
      rewrite repeat_snoc.
      replace (Z.to_nat (n + 1)) with (S (Z.to_nat n)) by lia. reflexivity.
    + rewrite encode_from_diff by congruence.
      rewrite decode_segment;
        [|assumption|assumption|apply encode_from_starts_with_symbol; assumption].
      rewrite IH by (assumption || lia). reflexivity.
Qed.

(** C3. [decode(encode(s)) == s] for every string [s] in which no
    character is a digit, whatever the lengths of its runs. *)
Theorem decode_encode_roundtrip (text : str) :
  no_digit text = true -> decode (encode text) = Ok text.
Proof.
  intros H. destruct text as [|c t]; [reflexivity|].
  simpl in H. apply andb_true_iff in H as [Hc Ht]. apply negb_true_iff in Hc.
  rewrite encode_first. rewrite decode_encode_from by (assumption || lia).
  reflexivity.
Qed.

(** The superscript digits are digits for [isdigit] but not for [int]: a
    text that holds one is outside the theorem, and [decode] raises on it. *)
Example decode_superscript_digit :
  isdigit (ascii_of_N 178) = true /\
  decode (encode [ascii_of_N 178]) = Raise (ValueError "invalid literal for int()").
Proof. split; vm_compute; reflexivity. Qed.

(** A text with a run of thirteen, whose count takes two digits. *)
Lemma decode_encode_roundtrip_witness :
  encode (lit "AAAAAAAAAAAAABB c") = lit "A13B2 c" /\
  decode (encode (lit "AAAAAAAAAAAAABB c")) = Ok (lit "AAAAAAAAAAAAABB c").
Proof.
  split; [reflexivity|].
  apply (decode_encode_roundtrip (lit "AAAAAAAAAAAAABB c")). reflexivity.
Defined.

(** ** Run-length coding: canonical encoded texts *)

Lemma render_cons (c : ascii) (n : Z) (runs : list (ascii * Z)) :
  render ((c, n) :: runs) = __encode_char_segment [c] n ++ render runs.
Proof. reflexivity. Qed.

Lemma expand_cons (c : ascii) (n : Z) (runs : list (ascii * Z)) :
  expand ((c, n) :: runs) = repeat c (Z.to_nat n) ++ expand runs.
Proof. reflexivity. Qed.

Lemma canonical_cons (c : ascii) (n : Z) (runs : list (ascii * Z)) :
  canonical ((c, n) :: runs) = true ->
  isdigit c = false /\ 1 <= n /\ head_differs c runs = true
  /\ canonical runs = true.
Proof.
  cbn [canonical]. rewrite !andb_true_iff, negb_true_iff, Z.leb_le. tauto.
Qed.

Lemma render_starts_with_symbol (runs : list (ascii * Z)) :
  canonical runs = true -> starts_with_symbol (render runs) = true.
Proof.
  destruct runs as [|[c n] rest]; [reflexivity|].
  intros H. apply canonical_cons in H as (Hc & _).
  rewrite render_cons. unfold __encode_char_segment. simpl.
  rewrite Hc. reflexivity.
Qed.

Lemma decode_render (runs : list (ascii * Z)) :
  canonical runs = true -> decode (render runs) = Ok (expand runs).
Proof.
  induction runs as [|[c n] rest IH]; intros H; [reflexivity|].
  apply canonical_cons in H as (Hc & Hn & _ & Hrest).
  rewrite render_cons, expand_cons.
  rewrite decode_segment by (try assumption; apply render_starts_with_symbol; assumption).
  rewrite IH by assumption. reflexivity.
Qed.

(** Encoding the text of a canonical description after [n] copies of a
    symbol that differs from its first one. *)
Lemma encode_from_expand (runs : list (ascii * Z)) (c : ascii) (n : Z) :
  canonical runs = true -> head_differs c runs = true ->
  encode_from (expand runs) [c] n = __encode_char_segment [c] n ++ render runs.
Proof.
  revert c n. induction runs as [|[d k] rest IH]; intros c n H Hhead.
  - unfold encode_from. cbn [expand map List.concat fold_left app render].
    rewrite app_nil_r. reflexivity.
  - apply canonical_cons in H as (Hd & Hk & Hdiff & Hrest).
    simpl in Hhead. apply negb_true_iff, Ascii.eqb_neq in Hhead.
    rewrite expand_cons, render_cons.
    replace (Z.to_nat k) with (S (Z.to_nat (k - 1))) by lia. cbn [repeat app].
    rewrite encode_from_diff by congruence.
    rewrite encode_from_repeat, IH by assumption.
    do 3 f_equal. lia.
Qed.

Lemma encode_expand (runs : list (ascii * Z)) :
  canonical runs = true -> encode (expand runs) = render runs.
Proof.
  destruct runs as [|[d k] rest]; intros H; [reflexivity|].
  apply canonical_cons in H as (Hd & Hk & Hdiff & Hrest).
  rewrite expand_cons, render_cons.
  replace (Z.to_nat k) with (S (Z.to_nat (k - 1))) by lia. cbn [repeat app].
  rewrite encode_first, encode_from_repeat, encode_from_expand by assumption.
  do 3 f_equal. lia.
Qed.

Lemma canonical_valid (runs : list (ascii * Z)) :
  canonical runs = true -> valid_encoded (render runs).
Proof.
  intros H.
  exists (map (fun r => (fst r, if snd r >? 1 then str_of_int (snd r) else [])) runs).
  split.
  - induction runs as [|[c n] rest IH]; [reflexivity|].
    apply canonical_cons in H as (Hc & Hn & _ & Hrest).
    cbn [map forallb fst snd]. rewrite IH by assumption.
    unfold segment_ok. cbn [fst snd]. rewrite Hc.
    destruct (n >? 1); [rewrite str_of_int_digits by lia|]; reflexivity.
  - unfold render, join_segments. rewrite map_map. reflexivity.
Qed.

(** C4 as stated fails: ["A1"] is a symbol followed by a digit, it decodes
    to ["A"], and ["A"] encodes to ["A"]: a count of 1 is never written. *)
Lemma encode_decode_count_one :
  valid_encoded (lit "A1") /\
  ~ (exists t, decode (lit "A1") = Ok t /\ encode t = lit "A1").
Proof.
  split.
  - exists [("A"%char, lit "1")]. split; reflexivity.
  - intros (t & Hd & He). vm_compute in Hd. injection Hd as <-.
    vm_compute in He. discriminate He.
Qed.

(** The other ways a valid encoded text fails to come back: equal
    neighbours are merged, leading zeros are dropped and a count of 0
    erases its symbol. *)
Example encode_decode_other_failures :
  (r <- decode (lit "AA") ;; Ok (encode r)) = Ok (lit "A2") /\
  (r <- decode (lit "A02") ;; Ok (encode r)) = Ok (lit "A2") /\
  (r <- decode (lit "A0B") ;; Ok (encode r)) = Ok (lit "B").
Proof. repeat split; vm_compute; reflexivity. Qed.

(** C4, amended. For every canonical encoded text [e] (each segment a
    non-digit symbol followed by nothing or by the decimal numeral of a
    count of at least 2, neighbouring segments carrying different
    symbols) whose numerals have at most 4300 digits, the limit of the
    interpreter for [int] and [str], [e] is a valid encoded text,
    [decode(e)] returns and [encode(decode(e)) == e]. *)
Theorem encode_decode_canonical (e : str) :
  canonical_encoded e -> digit_runs_bounded e = true ->
  valid_encoded e /\ exists t, decode e = Ok t /\ encode t = e.
Proof.
  intros (runs & Hc & ->) _. split.
  - apply canonical_valid. assumption.
  - exists (expand runs). split.
    + apply decode_render. assumption.
    + apply encode_expand. assumption.
Qed.

(** The encoded text of the notebook's test, with a count of 12 added. *)
Lemma encode_decode_canonical_witness :
  canonical_encoded (lit "A2BC3DE4F12") /\
  digit_runs_bounded (lit "A2BC3DE4F12") = true /\
  valid_encoded (lit "A2BC3DE4F12") /\
  exists t, decode (lit "A2BC3DE4F12") = Ok t /\ encode t = lit "A2BC3DE4F12".
Proof.
  assert (H : canonical_encoded (lit "A2BC3DE4F12")).
  { exists [("A", 2); ("B", 1); ("C", 3); ("D", 1); ("E", 4); ("F", 12)]%char.
    split; reflexivity. }
  split; [exact H|]. split; [reflexivity|].
  apply (encode_decode_canonical (lit "A2BC3DE4F12")); [exact H|reflexivity].
Defined.

(** ** Loops over ranges *)

Lemma range_nil (lo hi : Z) : hi <= lo -> range lo hi = [].
Proof.
  intros H. unfold range. replace (Z.to_nat (hi - lo)) with 0%nat by lia.
  reflexivity.
Qed.

Lemma range_cons (lo hi : Z) : lo < hi -> range lo hi = lo :: range (lo + 1) hi.
Proof.
  intros H. unfold range.
  replace (Z.to_nat (hi - lo)) with (S (Z.to_nat (hi - (lo + 1)))) by lia.
  cbn [seq map]. f_equal; [lia|].
  rewrite <- seq_shift, map_map. apply map_ext. intros k. lia.
Qed.

Lemma range_snoc (lo hi : Z) : lo <= hi -> range lo (hi + 1) = range lo hi ++ [hi].
Proof.
  intros H. unfold range.
  replace (Z.to_nat (hi + 1 - lo)) with (Z.to_nat (hi - lo) + 1)%nat by lia.
  rewrite seq_app, map_app. cbn [seq map]. do 2 f_equal. lia.
Qed.

Lemma in_range (lo hi j : Z) : In j (range lo hi) <-> lo <= j < hi.
Proof.
  unfold range. rewrite in_map_iff. split.
  - intros (k & <- & Hk). apply in_seq in Hk. lia.
  - intros H. exists (Z.to_nat (j - lo)). split; [lia|]. apply in_seq. lia.
Qed.

Lemma length_range (lo hi : Z) : List.length (range lo hi) = Z.to_nat (hi - lo).
Proof.
  unfold range. rewrite length_map, length_seq. reflexivity.
Qed.

Lemma for_each_app {A S : Type} (body : S -> A -> result S) (l1 l2 : list A) (s0 : S) :
  for_each body (l1 ++ l2) s0 = (s1 <- for_each body l1 s0 ;; for_each body l2 s1).
Proof.
  revert s0. induction l1 as [|x l1 IH]; intros s0; cbn [app for_each bind].
  - reflexivity.
  - destruct (body s0 x); cbn [bind]; [apply IH|reflexivity].
Qed.

(** A loop whose body never raises is a plain fold. *)
Lemma for_each_ok {A S : Type} (body : S -> A -> result S) (step : S -> A -> S)
  (l : list A) (s0 : S) :
  (forall x st, In x l -> body st x = Ok (step st x)) ->
  for_each body l s0 = Ok (fold_left step l s0).
Proof.
  revert s0. induction l as [|x l IH]; intros s0 H; cbn [for_each fold_left].
  - reflexivity.
  - rewrite H by (left; reflexivity). cbn [bind].
    apply IH. intros y st Hy. apply H. right. exact Hy.
Qed.

(** ** Indexing and slicing *)

Lemma getitem_index (code : str) (k : Z) :
  0 <= k < len code ->
  getitem code k = Ok (nth (Z.to_nat k) code "0"%char).
Proof.
  intros H. unfold getitem.
  replace (k <? 0) with false by (symmetry; apply Z.ltb_ge; lia).
  replace (0 <=? k) with true by (symmetry; apply Z.leb_le; lia).
  replace (k <? len code) with true by (symmetry; apply Z.ltb_lt; lia).
  cbn [andb]. unfold len in H.
  rewrite (nth_error_nth' code "0"%char) by lia. reflexivity.
Qed.

Lemma getitem_neg (code : str) (j : Z) :
  1 <= j <= len code -> getitem code (- j) = Ok (char_at code j).
Proof.
  intros H. unfold getitem, char_at.
  replace (- j <? 0) with true by (symmetry; apply Z.ltb_lt; lia).
  replace (0 <=? - j + len code) with true by (symmetry; apply Z.leb_le; lia).
  replace (- j + len code <? len code) with true by (symmetry; apply Z.ltb_lt; lia).
  cbn [andb]. unfold len in *.
  rewrite (nth_error_nth' code "0"%char) by lia.
  do 3 f_equal. lia.
Qed.

Lemma splice_replace_at (code : str) (k : Z) (v : ascii) :
  0 <= k < len code ->
  slice_to code k ++ [v] ++ slice_from code (k + 1) = replace_at code (Z.to_nat k) v.
Proof.
  intros H. unfold slice_to, slice_from, clamp, replace_at.
  replace (k <? 0) with false by (symmetry; apply Z.ltb_ge; lia).
  replace (k + 1 <? 0) with false by (symmetry; apply Z.ltb_ge; lia).
  replace (Z.to_nat (Z.min (Z.max 0 k) (len code))) with (Z.to_nat k) by lia.
  replace (Z.to_nat (Z.min (Z.max 0 (k + 1)) (len code))) with (S (Z.to_nat k)) by lia.
  reflexivity.
Qed.

Lemma length_replace_at (code : str) (k : nat) (v : ascii) :
  (k < List.length code)%nat -> List.length (replace_at code k v) = List.length code.
Proof.
  intros H. unfold replace_at.
  rewrite length_app, length_firstn. cbn [List.length]. rewrite length_skipn. lia.
Qed.

Lemma nth_replace_at (code : str) (k i : nat) (v d : ascii) :
  (k < List.length code)%nat ->
  nth i (replace_at code k v) d = if Nat.eqb i k then v else nth i code d.
Proof.
  intros H. unfold replace_at.
  assert (Hf : List.length (firstn k code) = k) by (rewrite length_firstn; lia).
  destruct (Nat.eqb_spec i k) as [->|Hne].
  - rewrite app_nth2 by lia. rewrite Hf, Nat.sub_diag. reflexivity.
  - destruct (Nat.lt_ge_cases i k) as [Hlt|Hge].
    + rewrite app_nth1 by lia.
      rewrite <- (firstn_skipn k code) at 2. rewrite app_nth1 by lia. reflexivity.
    + rewrite app_nth2 by lia. rewrite Hf.
      replace (i - k)%nat with (S (i - S k)) by lia. cbn [nth].
      rewrite <- (firstn_skipn (S k) code) at 2.
      rewrite app_nth2 by (rewrite length_firstn; lia).
      rewrite length_firstn. f_equal. lia.
Qed.

Lemma len_replace_at (code : str) (k : nat) (v : ascii) :
  (k < List.length code)%nat -> len (replace_at code k v) = len code.
Proof.
  intros H. unfold len. rewrite length_replace_at by assumption. reflexivity.
Qed.

(** Replacing the character at position [q] changes that position only. *)
Lemma char_at_replace_at (code : str) (q j : Z) (v : ascii) :
  1 <= q <= len code -> 1 <= j <= len code ->
  char_at (replace_at code (Z.to_nat (len code - q)) v) j =
  if j =? q then v else char_at code j.
Proof.
  intros Hq Hj. unfold char_at.
  rewrite len_replace_at by (unfold len in *; lia).
  rewrite nth_replace_at by (unfold len in *; lia).
  destruct (Z.eqb_spec j q) as [->|Hne].
  - rewrite Nat.eqb_refl. reflexivity.
  - replace (Nat.eqb _ _) with false; [reflexivity|].
    symmetry. apply Nat.eqb_neq. lia.
Qed.

Lemma replace_at_twice (code : str) (k : nat) (u v : ascii) :
  (k < List.length code)%nat ->
  replace_at (replace_at code k u) k v = replace_at code k v.
Proof.
  intros H. unfold replace_at.
  assert (Hf : List.length (firstn k code) = k) by (rewrite length_firstn; lia).
  rewrite firstn_app, Hf, Nat.sub_diag, firstn_O, app_nil_r.
  rewrite firstn_firstn, Nat.min_id.
  rewrite skipn_app, Hf.
  replace (S k - k)%nat with 1%nat by lia.
  rewrite (skipn_all2 (firstn k code)) by lia. reflexivity.
Qed.

Lemma replace_at_same (code : str) (k : nat) :
  (k < List.length code)%nat -> replace_at code k (nth k code "0"%char) = code.
Proof.
  revert k. induction code as [|c code IH]; intros k H; [simpl in H; lia|].
  destruct k as [|k]; [reflexivity|].
  unfold replace_at in *. cbn [firstn skipn app nth].
  f_equal. apply IH. simpl in H. lia.
Qed.

Lemma bit_string_replace_at (code : str) (k : nat) (v : ascii) :
  bit_string code = true -> is_bit v = true ->
  bit_string (replace_at code k v) = true.
Proof.
  unfold bit_string, replace_at. intros Hc Hv.
  assert (Hf : forallb is_bit (firstn k code) = true).
  { rewrite <- (firstn_skipn k code), forallb_app in Hc.
    apply andb_true_iff in Hc. tauto. }
  assert (Hs : forallb is_bit (skipn (S k) code) = true).
  { rewrite <- (firstn_skipn (S k) code), forallb_app in Hc.
    apply andb_true_iff in Hc. tauto. }
  rewrite forallb_app. cbn [forallb]. rewrite Hf, Hv, Hs. reflexivity.
Qed.

Lemma bit_string_nth (code : str) (k : nat) :
  bit_string code = true -> is_bit (nth k code "0"%char) = true.
Proof.
  intros H. unfold bit_string in H. rewrite forallb_forall in H.
  destruct (Nat.lt_ge_cases k (List.length code)) as [Hlt|Hge].
  - apply H, nth_In, Hlt.
  - rewrite nth_overflow by lia. reflexivity.
Qed.

Lemma is_bit_cases (c : ascii) : is_bit c = true -> c = "0"%char \/ c = "1"%char.
Proof.
  unfold is_bit. rewrite orb_true_iff, !Ascii.eqb_eq. tauto.
Qed.

Lemma int_of_bit (c : ascii) : is_bit c = true -> int_of_str [c] = Ok (bit_of c).
Proof.
  intros H. destruct (is_bit_cases c H) as [->| ->]; reflexivity.
Qed.

Lemma str_of_flipped_bit (c : ascii) :
  is_bit c = true -> str_of_int (1 - bit_of c) = [flip_char c].
Proof.
  intros H. destruct (is_bit_cases c H) as [->| ->]; reflexivity.
Qed.

Lemma str_of_bit (b : bool) : str_of_int (Z.b2z b) = [if b then "1" else "0"]%char.
Proof. destruct b; reflexivity. Qed.

Lemma is_bit_flip_char (c : ascii) : is_bit (flip_char c) = true.
Proof. unfold flip_char. destruct (Ascii.eqb c "1"); reflexivity. Qed.

Lemma flip_char_involutive (c : ascii) : is_bit c = true -> flip_char (flip_char c) = c.
Proof.
  intros H. destruct (is_bit_cases c H) as [->| ->]; reflexivity.
Qed.

(** Flipping the bit at a valid index of a bit string. *)
Lemma flip_at_index (code : str) (k : Z) :
  bit_string code = true -> 0 <= k < len code ->
  flip_at code k =
  Ok (replace_at code (Z.to_nat k) (flip_char (nth (Z.to_nat k) code "0"%char))).
Proof.
  intros Hb Hk. unfold flip_at.
  rewrite getitem_index by assumption. cbn [bind].
  rewrite int_of_bit by (apply bit_string_nth; assumption). cbn [bind].
  rewrite str_of_flipped_bit by (apply bit_string_nth; assumption).
  rewrite splice_replace_at by assumption. reflexivity.
Qed.

(** ** Parity sums *)

Lemma covers_testbit (i j : Z) : 0 <= i -> covers i j = Z.testbit j i.
Proof.
  intros Hi. unfold covers. destruct (Z.testbit j i) eqn:E.
  - apply Z.eqb_eq. apply Z.bits_inj'. intros k Hk.
    rewrite Z.land_spec, Z.pow2_bits_eqb by assumption.
    destruct (Z.eqb_spec i k) as [<-|]; [rewrite E; reflexivity|apply andb_false_r].
  - apply Z.eqb_neq. intros H.
    assert (Hb : Z.testbit (Z.land j (2 ^ i)) i = true).
    { rewrite H. apply Z.pow2_bits_true. assumption. }
    rewrite Z.land_spec, E in Hb. discriminate Hb.
Qed.

Lemma covers_power (i t : Z) : 0 <= i -> 0 <= t -> covers i (2 ^ t) = (t =? i).
Proof.
  intros Hi Ht. rewrite covers_testbit by assumption.
  apply Z.pow2_bits_eqb. assumption.
Qed.

Lemma fold_xor_bits (bits : Z -> Z) (i : Z) (js : list Z) (v0 : Z) :
  fold_left (fun v j => if covers i j then Z.lxor v (bits j) else v) js v0 =
  Z.lxor v0 (xor_bits bits i js).
Proof.
  revert v0. induction js as [|j js IH]; intros v0; cbn [fold_left xor_bits].
  - rewrite Z.lxor_0_r. reflexivity.
  - rewrite IH. destruct (covers i j).
    + rewrite Z.lxor_assoc. reflexivity.
    + rewrite Z.lxor_0_l. reflexivity.
Qed.

Lemma xor_bits_ext (bits bits' : Z -> Z) (i : Z) (js : list Z) :
  (forall j, In j js -> covers i j = true -> bits' j = bits j) ->
  xor_bits bits' i js = xor_bits bits i js.
Proof.
  induction js as [|j js IH]; intros H; cbn [xor_bits]; [reflexivity|].
  rewrite IH by (intros k Hk; apply H; right; exact Hk).
  destruct (covers i j) eqn:E; [|reflexivity].
  rewrite (H j) by (assumption || left; reflexivity). reflexivity.
Qed.

Lemma lxor_swap (a b x : Z) :
  Z.lxor b x = Z.lxor (Z.lxor a x) (Z.lxor a b).
Proof.
  apply Z.bits_inj'. intros k _. rewrite !Z.lxor_spec.
  destruct (Z.testbit a k), (Z.testbit b k), (Z.testbit x k); reflexivity.
Qed.

(** Changing the bit at one position [q] of [js] changes the parity sums
    that cover [q], by the difference of the two bits. *)
Lemma xor_bits_update (bits bits' : Z -> Z) (i q : Z) (js : list Z) :
  NoDup js -> In q js ->
  (forall j, In j js -> j <> q -> covers i j = true -> bits' j = bits j) ->
  xor_bits bits' i js =
  Z.lxor (xor_bits bits i js)
         (if covers i q then Z.lxor (bits q) (bits' q) else 0).
Proof.
  induction js as [|j js IH]; intros Hnd Hin Hext; [contradiction|].
  apply NoDup_cons_iff in Hnd as [Hnotin Hnd]. cbn [xor_bits].
  destruct (Z.eq_dec j q) as [->|Hne].
  - rewrite (xor_bits_ext bits bits') with (js := js).
    2:{ intros k Hk Hc. apply Hext; [right; exact Hk| |exact Hc].
        intros ->. contradiction. }
    destruct (covers i q).
    + apply lxor_swap.
    + rewrite Z.lxor_0_r. reflexivity.
  - destruct Hin as [Heq|Hin]; [contradiction|].
    rewrite IH by (try assumption; intros k Hk; apply Hext; right; exact Hk).
    rewrite Z.lxor_assoc. destruct (covers i j) eqn:E; [|reflexivity].
    rewrite (Hext j) by (assumption || left; reflexivity). reflexivity.
Qed.

(** A parity sum splits into the bit at a covered position and the sum
    over the other positions. *)
Lemma xor_bits_remove (bits : Z -> Z) (i q : Z) (js : list Z) :
  NoDup js -> In q js -> covers i q = true ->
  xor_bits bits i js = Z.lxor (bits q) (xor_bits bits i (remove Z.eq_dec q js)).
Proof.
  induction js as [|j js IH]; intros Hnd Hin Hc; [contradiction|].
  apply NoDup_cons_iff in Hnd as [Hnotin Hnd]. cbn [xor_bits remove].
  destruct (Z.eq_dec q j) as [<-|Hne].
  - rewrite Hc. rewrite notin_remove by assumption. reflexivity.
  - destruct Hin as [Heq|Hin]; [congruence|].
    cbn [xor_bits]. rewrite IH by assumption.
    rewrite <- !Z.lxor_assoc. f_equal. apply Z.lxor_comm.
Qed.

Lemma NoDup_range (lo hi : Z) : NoDup (range lo hi).
Proof.
  unfold range. apply Injective_map_NoDup; [|apply seq_NoDup].
  intros a b H. lia.
Qed.

(** On a bit string the inner loop never raises and computes the parity sum. *)
Lemma parity_value_bits (code : str) (i : Z) :
  bit_string code = true ->
  parity_value code (len code) i = Ok (parity_sum code i).
Proof.
  intros Hb. unfold parity_value, parity_sum.
  rewrite (for_each_ok _
             (fun v j => if covers i j then Z.lxor v (bit_at code j) else v)).
  - rewrite fold_xor_bits, Z.lxor_0_l. reflexivity.
  - intros j v Hj. apply in_range in Hj. unfold parity_step.
    fold (covers i j). destruct (covers i j); [|reflexivity].
    rewrite getitem_neg by lia. cbn [bind].
    rewrite int_of_bit by (apply bit_string_nth; assumption).
    reflexivity.
Qed.

Lemma bit_of_range (c : ascii) : 0 <= bit_of c <= 1.
Proof. unfold bit_of. destruct (Ascii.eqb c "1"); lia. Qed.

Lemma xor_bits_range (bits : Z -> Z) (i : Z) (js : list Z) :
  (forall j, 0 <= bits j <= 1) -> 0 <= xor_bits bits i js <= 1.
Proof.
  intros H. induction js as [|j js IH]; cbn [xor_bits]; [lia|].
  assert (Hc : 0 <= (if covers i j then bits j else 0) <= 1)
    by (destruct (covers i j); [apply H|lia]).
  assert (Hx : forall a b, 0 <= a <= 1 -> 0 <= b <= 1 -> 0 <= Z.lxor a b <= 1).
  { intros a b Ha Hb.
    assert (Ea : a = 0 \/ a = 1) by lia. assert (Eb : b = 0 \/ b = 1) by lia.
    destruct Ea as [-> | ->], Eb as [-> | ->]; cbn; lia. }
  apply Hx; assumption.
Qed.

Lemma parity_sum_range (code : str) (i : Z) : 0 <= parity_sum code i <= 1.
Proof.
  apply xor_bits_range. intros j. apply bit_of_range.
Qed.

(** ** Computing the parity bits *)

Lemma str_of_bit_value (v : Z) : 0 <= v <= 1 -> str_of_int v = [char_of_bit v].
Proof.
  intros H. assert (E : v = 0 \/ v = 1) by lia. destruct E as [-> | ->]; reflexivity.
Qed.

Lemma bit_of_char_of_bit (v : Z) : 0 <= v <= 1 -> bit_of (char_of_bit v) = v.
Proof.
  intros H. assert (E : v = 0 \/ v = 1) by lia. destruct E as [-> | ->]; reflexivity.
Qed.

Lemma is_bit_char_of_bit (v : Z) : is_bit (char_of_bit v) = true.
Proof. unfold char_of_bit. destruct (v =? 1); reflexivity. Qed.

Lemma pow2_pos (i : Z) : 0 <= i -> 1 <= 2 ^ i.
Proof. intros H. pose proof (Z.pow_pos_nonneg 2 i ltac:(lia) H). lia. Qed.

Lemma pow2_inj (i t : Z) : 0 <= i -> 0 <= t -> 2 ^ i = 2 ^ t -> i = t.
Proof. intros Hi Ht H. apply (Z.pow_inj_r 2); lia. Qed.

(** Parity sums do not see a change at a position they do not cover. *)
Lemma parity_sum_replace_uncovered (code : str) (i q : Z) (v : ascii) :
  1 <= q <= len code -> covers i q = false ->
  parity_sum (replace_at code (Z.to_nat (len code - q)) v) i = parity_sum code i.
Proof.
  intros Hq Hc. unfold parity_sum.
  rewrite len_replace_at by (unfold len in *; lia).
  apply xor_bits_ext. intros j Hj Hcov. apply in_range in Hj.
  unfold bit_at. rewrite char_at_replace_at by lia.
  destruct (Z.eqb_spec j q) as [->|]; [congruence|reflexivity].
Qed.

(** The outer loop of [calculate_parity_values], entered at parity [t] with
    [k] parities left: it returns a bit string of the same length that
    differs from [code] at the positions [2^i] of these parities only, and
    holds there the parity sums of [code]. *)
Lemma calculate_parity_values_loop (n : Z) (k : nat) (t : Z) (code : str) :
  bit_string code = true -> len code = n -> 0 <= t ->
  (forall i, t <= i < t + Z.of_nat k -> 2 ^ i <= n) ->
  exists code',
    for_each
      (fun code i =>
         val <- parity_value code n i ;;
         Ok (slice_to code (n - 2 ^ i) ++ str_of_int val
               ++ slice_from code (n - 2 ^ i + 1)))
      (range t (t + Z.of_nat k)) code = Ok code' /\
    bit_string code' = true /\ len code' = n /\
    (forall j, 1 <= j <= n ->
               (forall i, t <= i < t + Z.of_nat k -> j <> 2 ^ i) ->
               char_at code' j = char_at code j) /\
    (forall i, t <= i < t + Z.of_nat k -> bit_at code' (2 ^ i) = parity_sum code i).
Proof.
  revert t code. induction k as [|k IH]; intros t code Hb Hlen Ht Hpow.
  - rewrite range_nil by lia. exists code. cbn [for_each].
    repeat split; try assumption; intros; lia.
  - rewrite range_cons by lia. cbn [for_each].
    pose proof (pow2_pos t Ht) as Hp1.
    pose proof (Hpow t ltac:(lia)) as Hp2.
    cbv beta.
    replace (parity_value code n t) with (parity_value code (len code) t)
      by (rewrite Hlen; reflexivity).
    rewrite parity_value_bits by assumption. cbn [bind].
    pose proof (parity_sum_range code t) as Hval.
    rewrite str_of_bit_value by assumption.
    rewrite splice_replace_at by lia.
    set (code1 := replace_at code (Z.to_nat (n - 2 ^ t)) (char_of_bit (parity_sum code t))).
    assert (Hb1 : bit_string code1 = true)
      by (apply bit_string_replace_at; [assumption|apply is_bit_char_of_bit]).
    assert (Hlen1 : len code1 = n)
      by (unfold code1; rewrite len_replace_at; unfold len in *; lia).
    assert (Hchar1 : forall j, 1 <= j <= n ->
              char_at code1 j =
              if j =? 2 ^ t then char_of_bit (parity_sum code t) else char_at code j).
    { intros j Hj. unfold code1. rewrite <- Hlen.
      apply char_at_replace_at; lia. }
    destruct (IH (t + 1) code1 Hb1 Hlen1 ltac:(lia)) as (code' & Hrun & Hb' & Hlen' & Hsame & Hpar).
    { intros i Hi. apply Hpow. lia. }
    exists code'.
    replace (t + 1 + Z.of_nat k) with (t + Z.of_nat (S k)) in * by lia.
    split; [exact Hrun|]. split; [exact Hb'|]. split; [exact Hlen'|]. split.
    + intros j Hj Hnot. rewrite Hsame by (try assumption; intros i Hi; apply Hnot; lia).
      rewrite Hchar1 by assumption.
      destruct (Z.eqb_spec j (2 ^ t)) as [E|]; [|reflexivity].
      exfalso. apply (Hnot t); [lia|exact E].
    + intros i Hi. destruct (Z.eq_dec i t) as [->|Hne].
      * unfold bit_at. rewrite Hsame.
        -- rewrite Hchar1 by lia. rewrite Z.eqb_refl.
           apply bit_of_char_of_bit. assumption.
        -- lia.
        -- intros i Hi' E. apply pow2_inj in E; lia.
      * rewrite Hpar by lia. unfold code1. rewrite <- Hlen.
        apply parity_sum_replace_uncovered; [lia|].
        rewrite covers_power by lia. apply Z.eqb_neq. lia.
Qed.

(** ** The error position *)

Lemma error_position_bits (code : str) (p : Z) :
  bit_string code = true ->
  error_position code p = Ok (syndrome code (Z.to_nat p)).
Proof.
  intros Hb. unfold error_position.
  rewrite (for_each_ok _ (fun e i => e + parity_sum code i * 2 ^ i)).
  2:{ intros i e _. rewrite parity_value_bits by assumption. reflexivity. }
  f_equal. destruct (Z_le_gt_dec p 0) as [Hp|Hp].
  - rewrite range_nil by lia. replace (Z.to_nat p) with 0%nat by lia. reflexivity.
  - replace p with (Z.of_nat (Z.to_nat p)) at 1 by lia.
    induction (Z.to_nat p) as [|k IH]; [reflexivity|].
    rewrite Nat2Z.inj_succ. unfold Z.succ.
    rewrite range_snoc by lia. rewrite fold_left_app, IH. reflexivity.
Qed.

Lemma syndrome_nonneg (code : str) (k : nat) : 0 <= syndrome code k.
Proof.
  induction k as [|k IH]; cbn [syndrome]; [lia|].
  pose proof (parity_sum_range code (Z.of_nat k)).
  pose proof (pow2_pos (Z.of_nat k) ltac:(lia)). nia.
Qed.

Lemma syndrome_zero (code : str) (k : nat) :
  (forall i, 0 <= i < Z.of_nat k -> parity_sum code i = 0) ->
  syndrome code k = 0.
Proof.
  induction k as [|k IH]; intros H; cbn [syndrome]; [reflexivity|].
  rewrite IH by (intros i Hi; apply H; lia).
  rewrite H by lia. reflexivity.
Qed.

Lemma mod_pow2_succ (q k : Z) :
  0 <= k -> q mod 2 ^ (k + 1) = q mod 2 ^ k + Z.b2z (Z.testbit q k) * 2 ^ k.
Proof.
  intros Hk. rewrite Z.pow_add_r, Z.pow_1_r by lia.
  pose proof (pow2_pos k Hk).
  rewrite Z.rem_mul_r by lia.
  rewrite Z.testbit_spec' by assumption. lia.
Qed.

(** When every parity sum is the matching bit of [q], the error position
    is [q] reduced to its [k] low bits. *)
Lemma syndrome_testbit (code : str) (q : Z) (k : nat) :
  (forall i, 0 <= i < Z.of_nat k -> parity_sum code i = Z.b2z (Z.testbit q i)) ->
  syndrome code k = q mod 2 ^ Z.of_nat k.
Proof.
  induction k as [|k IH]; intros H; cbn [syndrome].
  - rewrite Z.mod_1_r. reflexivity.
  - rewrite IH by (intros i Hi; apply H; lia).
    rewrite H by lia. rewrite Nat2Z.inj_succ. unfold Z.succ.
    rewrite mod_pow2_succ by lia. reflexivity.
Qed.

Lemma syndrome_lt (code : str) (k : nat) : syndrome code k < 2 ^ Z.of_nat k.
Proof.
  induction k as [|k IH]; cbn [syndrome]; [cbn; lia|].
  pose proof (parity_sum_range code (Z.of_nat k)).
  pose proof (pow2_pos (Z.of_nat k) ltac:(lia)).
  rewrite Nat2Z.inj_succ. unfold Z.succ.
  rewrite Z.pow_add_r, Z.pow_1_r by lia. nia.
Qed.

(** The bits of the error position are the parity sums. *)
Lemma syndrome_bits (code : str) (k : nat) (i : Z) :
  0 <= i < Z.of_nat k ->
  Z.b2z (Z.testbit (syndrome code k) i) = parity_sum code i.
Proof.
  induction k as [|k IH]; intros Hi; [lia|]. cbn [syndrome].
  pose proof (syndrome_nonneg code k) as H0.
  pose proof (syndrome_lt code k) as H1.
  pose proof (pow2_pos (Z.of_nat k) ltac:(lia)) as Hp.
  destruct (Z.eq_dec i (Z.of_nat k)) as [->|Hne].
  - rewrite Z.testbit_spec' by lia.
    rewrite Z.div_add by lia. rewrite Z.div_small by lia.
    pose proof (parity_sum_range code (Z.of_nat k)).
    rewrite Z.add_0_l. apply Z.mod_small. lia.
  - rewrite <- IH by lia. f_equal.
    rewrite <- (Z.mod_pow2_bits_low _ (Z.of_nat k)) by lia.
    rewrite Z.mod_add by lia. rewrite Z.mod_small by lia. reflexivity.
Qed.

(** Flipping the bit at position [q] flips the parity sums that cover [q]. *)
Lemma parity_sum_flip (code : str) (i q : Z) :
  bit_string code = true -> 0 <= i -> 1 <= q <= len code ->
  parity_sum (replace_at code (Z.to_nat (len code - q)) (flip_char (char_at code q))) i
  = Z.lxor (parity_sum code i) (Z.b2z (Z.testbit q i)).
Proof.
  intros Hb Hi Hq. unfold parity_sum.
  rewrite len_replace_at by (unfold len in *; lia).
  rewrite (xor_bits_update (bit_at code) _ i q).
  - f_equal. rewrite covers_testbit by assumption.
    destruct (Z.testbit q i); [|reflexivity].
    unfold bit_at. rewrite char_at_replace_at, Z.eqb_refl by lia.
    assert (Hc : is_bit (char_at code q) = true) by (apply bit_string_nth; assumption).
    destruct (is_bit_cases _ Hc) as [-> | ->]; reflexivity.
  - apply NoDup_range.
  - apply in_range. lia.
  - intros j Hj Hne _. apply in_range in Hj. unfold bit_at.
    rewrite char_at_replace_at by lia.
    destruct (Z.eqb_spec j q); [contradiction|reflexivity].
Qed.

(** ** Placing the parity bits *)

Lemma is_power_of_two_pow (t : Z) : 0 <= t -> is_power_of_two (2 ^ t) = true.
Proof.
  intros Ht. unfold is_power_of_two. rewrite Z.log2_pow2 by assumption.
  apply Z.eqb_refl.
Qed.

Lemma is_power_of_two_log (x : Z) :
  is_power_of_two x = true -> x = 2 ^ Z.log2 x /\ 0 <= Z.log2 x.
Proof.
  unfold is_power_of_two. intros H. apply Z.eqb_eq in H.
  split; [exact H|apply Z.log2_nonneg].
Qed.

(** While [j] counts the powers of two below position [i], position [i] is
    a power of two exactly when it is [2^j]. *)
Lemma is_power_of_two_next (i j : Z) :
  1 <= i -> 0 <= j -> i <= 2 ^ j -> (j = 0 \/ 2 ^ (j - 1) < i) ->
  (i =? 2 ^ j) = is_power_of_two i.
Proof.
  intros Hi Hj Hle Hgt. destruct (Z.eqb_spec i (2 ^ j)) as [->|Hne].
  - symmetry. apply is_power_of_two_pow. assumption.
  - symmetry. unfold is_power_of_two. apply Z.eqb_neq.
    destruct Hgt as [->|Hgt]; [cbn in Hle, Hne; lia|].
    assert (Hj1 : 1 <= j).
    { destruct (Z.eq_dec j 0) as [->|]; [cbn in Hle, Hne; lia|lia]. }
    rewrite (Z.log2_unique i (j - 1)); [lia|lia|].
    replace (Z.succ (j - 1)) with j by lia. lia.
Qed.

Lemma firstn_succ_nth {A : Type} (l : list A) (a : nat) (d : A) :
  (a < List.length l)%nat -> firstn (S a) l = firstn a l ++ [nth a l d].
Proof.
  revert a. induction l as [|x l IH]; intros a H; [simpl in H; lia|].
  destruct a as [|a]; [reflexivity|].
  cbn [firstn nth app]. f_equal. apply IH. simpl in H. lia.
Qed.

Lemma char_at_rev (code : str) (k : Z) :
  1 <= k <= len code -> char_at code k = nth (Z.to_nat (k - 1)) (rev code) "0"%char.
Proof.
  intros H. unfold char_at, len in *.
  rewrite rev_nth by lia. f_equal. lia.
Qed.

Section Positioning.

Variable data : str.
Variable p : Z.
Hypothesis p_minimal : forall q, 0 <= q < p -> 2 ^ q < len data + q + 1.

(** The loop of [position_parity_bits] entered at position [i], with
    [cnt] positions to go. *)
Lemma position_loop (cnt : nat) (i j k : Z) (result : str) :
  1 <= i -> 0 <= j -> i <= 2 ^ j -> (j = 0 \/ 2 ^ (j - 1) < i) ->
  k = i - j -> i + Z.of_nat cnt <= len data + p + 1 ->
  exists j' suf,
    for_each (position_step data) (range i (i + Z.of_nat cnt)) (j, k, result)
    = Ok (j', i + Z.of_nat cnt - j', result ++ suf) /\
    0 <= j' /\ i + Z.of_nat cnt <= 2 ^ j' /\
    (j' = 0 \/ 2 ^ (j' - 1) < i + Z.of_nat cnt) /\
    List.length suf = cnt /\
    firstn (Z.to_nat (k - 1)) (rev data) ++ select is_data_position i suf
    = firstn (Z.to_nat (i + Z.of_nat cnt - j' - 1)) (rev data) /\
    (forall x, i <= x < i + Z.of_nat cnt -> is_power_of_two x = true ->
               nth (Z.to_nat (x - i)) suf "1"%char = "0"%char) /\
    (forall c, In c suf -> c = "0"%char \/ In c data).
Proof.
  revert i j k result.
  induction cnt as [|cnt IH]; intros i j k result Hi Hj Hle Hgt Hk Hend.
  - exists j, []. rewrite range_nil by lia. cbn [for_each].
    rewrite app_nil_r, Z.add_0_r. subst k.
    repeat split; try assumption; try reflexivity.
    + cbn [select]. rewrite app_nil_r. reflexivity.
    + intros x Hx. lia.
    + intros c [].
  - rewrite range_cons by lia. cbn [for_each]. unfold position_step at 1.
    pose proof (is_power_of_two_next i j Hi Hj Hle Hgt) as Hpow.
    assert (Hk1 : 1 <= k).
    { subst k. destruct Hgt as [->|Hgt]; [lia|].
      pose proof (Z.pow_gt_lin_r 2 (j - 1) ltac:(lia)).
      destruct (Z_le_gt_dec j 0); lia. }
    destruct (i =? 2 ^ j) eqn:E; cbn [bind].
    + apply Z.eqb_eq in E.
      destruct (IH (i + 1) (j + 1) k (result ++ ["0"%char]))
        as (j' & suf & Hrun & Hj' & Hle' & Hgt' & Hlen & Hsel & Hzero & Hin);
        try lia.
      { rewrite Z.pow_add_r, Z.pow_1_r by lia. lia. }
      { right. replace (j + 1 - 1) with j by lia. lia. }
      exists j', ("0"%char :: suf).
      replace (i + 1 + Z.of_nat cnt) with (i + Z.of_nat (S cnt)) in * by lia.
      rewrite <- app_assoc in Hrun. cbn [app] in Hrun.
      repeat split; try assumption.
      * cbn [List.length]. rewrite Hlen. reflexivity.
      * cbn [select]. unfold is_data_position at 1. rewrite <- Hpow. cbn [negb]. exact Hsel.
      * intros x Hx Hxp. destruct (Z.eq_dec x i) as [->|Hne].
        -- rewrite Z.sub_diag. reflexivity.
        -- replace (Z.to_nat (x - i)) with (S (Z.to_nat (x - (i + 1)))) by lia.
           cbn [nth]. apply Hzero; [lia|assumption].
      * intros c [<-|Hc]; [left; reflexivity|apply Hin; exact Hc].
    + apply Z.eqb_neq in E.
      assert (Hkm : k <= len data).
      { subst k. destruct (Z_lt_ge_dec j p) as [Hjp|Hjp].
        - pose proof (p_minimal j ltac:(lia)). lia.
        - lia. }
      rewrite getitem_neg by lia. cbn [bind].
      destruct (IH (i + 1) j (k + 1) (result ++ [char_at data k]))
        as (j' & suf & Hrun & Hj' & Hle' & Hgt' & Hlen & Hsel & Hzero & Hin);
        try lia.
      exists j', (char_at data k :: suf).
      replace (i + 1 + Z.of_nat cnt) with (i + Z.of_nat (S cnt)) in * by lia.
      rewrite <- app_assoc in Hrun. cbn [app] in Hrun.
      repeat split; try assumption.
      * cbn [List.length]. rewrite Hlen. reflexivity.
      * cbn [select]. unfold is_data_position at 1. rewrite <- Hpow. cbn [negb].
        rewrite <- Hsel. replace (k + 1 - 1) with k by lia.
        replace (Z.to_nat k) with (S (Z.to_nat (k - 1))) by lia.
        rewrite (firstn_succ_nth _ _ "0"%char)
          by (rewrite length_rev; unfold len in Hkm; lia).
        rewrite <- char_at_rev by lia.
        rewrite <- app_assoc. reflexivity.
      * intros x Hx Hxp. destruct (Z.eq_dec x i) as [->|Hne].
        -- rewrite Hxp in Hpow. discriminate Hpow.
        -- replace (Z.to_nat (x - i)) with (S (Z.to_nat (x - (i + 1)))) by lia.
           cbn [nth]. apply Hzero; [lia|assumption].
      * intros c [<-|Hc]; [|apply Hin; exact Hc].
        right. unfold char_at. apply nth_In. unfold len in *. lia.
Qed.

End Positioning.

Lemma pow2_bracket_unique (x a b : Z) :
  0 <= a -> 0 <= b ->
  x <= 2 ^ a -> (a = 0 \/ 2 ^ (a - 1) < x) ->
  x <= 2 ^ b -> (b = 0 \/ 2 ^ (b - 1) < x) ->
  a = b.
Proof.
  intros Ha Hb Ha1 Ha2 Hb1 Hb2.
  destruct (Z.lt_trichotomy a b) as [Hlt|[Heq|Hgt]]; [|exact Heq|].
  - destruct Hb2 as [->|Hb2]; [lia|].
    pose proof (Z.pow_le_mono_r 2 a (b - 1) ltac:(lia) ltac:(lia)). lia.
  - destruct Ha2 as [->|Ha2]; [lia|].
    pose proof (Z.pow_le_mono_r 2 b (a - 1) ltac:(lia) ltac:(lia)). lia.
Qed.

(** What [position_parity_bits] returns for a parity count that is the
    least one fitting the data. *)
Lemma position_parity_bits_spec (data : str) (p : Z) :
  0 <= p ->
  (forall q, 0 <= q < p -> 2 ^ q < len data + q + 1) ->
  len data + p + 1 <= 2 ^ p ->
  exists code,
    position_parity_bits data p = Ok code /\
    len code = len data + p /\
    data_of code = data /\
    (forall x, 1 <= x <= len code -> is_power_of_two x = true ->
               char_at code x = "0"%char) /\
    (bit_string data = true -> bit_string code = true).
Proof.
  intros Hp Hmin Hfit.
  assert (Hm : 0 <= len data) by (unfold len; lia).
  destruct (position_loop data p Hmin (Z.to_nat (len data + p)) 1 0 1 [])
    as (j' & suf & Hrun & Hj' & Hle' & Hgt' & Hlen & Hsel & Hzero & Hin);
    try lia.
  replace (1 + Z.of_nat (Z.to_nat (len data + p))) with (len data + p + 1) in * by lia.
  assert (Ej : j' = p).
  { apply (pow2_bracket_unique (len data + p + 1)); try assumption.
    destruct (Z.eq_dec p 0) as [->|Hne]; [left; reflexivity|right].
    pose proof (Hmin (p - 1) ltac:(lia)). lia. }
  subst j'.
  exists (rev suf). unfold position_parity_bits. rewrite Hrun. cbn [bind app].
  assert (Hl : len (rev suf) = len data + p)
    by (unfold len in *; rewrite length_rev; lia).
  repeat split.
  - exact Hl.
  - unfold data_of. rewrite rev_involutive.
    cbn [firstn Z.to_nat app] in Hsel. replace (Z.to_nat (1 - 1)) with 0%nat in Hsel by lia.
    cbn [firstn app] in Hsel. rewrite Hsel.
    rewrite firstn_all2 by (rewrite length_rev; unfold len; lia).
    apply rev_involutive.
  - intros x Hx Hpow. rewrite char_at_rev by assumption.
    rewrite rev_involutive.
    rewrite (nth_indep _ _ "1"%char) by lia.
    apply Hzero; [lia|assumption].
  - intros Hb. unfold bit_string in *. rewrite forallb_forall in Hb.
    apply forallb_forall. intros c Hc. apply in_rev in Hc.
    destruct (Hin c Hc) as [->|Hd]; [reflexivity|apply Hb, Hd].
Qed.

(** ** Removing the parity bits *)

Lemma select_snoc {A : Type} (keep : Z -> bool) (j : Z) (l : list A) (x : A) :
  select keep j (l ++ [x]) =
  select keep j l ++ (if keep (j + Z.of_nat (List.length l)) then [x] else []).
Proof.
  revert j. induction l as [|y l IH]; intros j; cbn [app select List.length].
  - rewrite Z.add_0_r. destruct (keep j); reflexivity.
  - rewrite IH. replace (j + 1 + Z.of_nat (List.length l))
      with (j + Z.of_nat (S (List.length l))) by lia.
    destruct (keep j); reflexivity.
Qed.

Lemma data_of_cons (c : ascii) (rest : str) :
  data_of (c :: rest) =
  (if is_data_position (len (c :: rest)) then [c] else []) ++ data_of rest.
Proof.
  unfold data_of. cbn [rev]. rewrite select_snoc, rev_app_distr, length_rev.
  unfold len. cbn [List.length].
  replace (1 + Z.of_nat (List.length rest)) with (Z.of_nat (S (List.length rest))) by lia.
  destruct (is_data_position _); reflexivity.
Qed.

Lemma select_ext {A : Type} (keep : Z -> bool) (d : A) (l l' : list A) (j : Z) :
  List.length l = List.length l' ->
  (forall a, (a < List.length l)%nat -> keep (j + Z.of_nat a) = true ->
             nth a l d = nth a l' d) ->
  select keep j l = select keep j l'.
Proof.
  revert l' j. induction l as [|x l IH]; intros [|x' l'] j Hlen H;
    try discriminate Hlen; [reflexivity|].
  cbn [select].
  assert (Hrest : select keep (j + 1) l = select keep (j + 1) l').
  { apply IH; [simpl in Hlen; lia|].
    intros a Ha Hk. apply (H (S a)); [simpl; lia|].
    replace (j + Z.of_nat (S a)) with (j + 1 + Z.of_nat a) by lia. exact Hk. }
  rewrite Hrest. destruct (keep j) eqn:E; [|reflexivity].
  f_equal. apply (H 0%nat); [simpl; lia|]. rewrite Z.add_0_r. exact E.
Qed.

(** The data of a code word depends on its non-power positions only. *)
Lemma data_of_ext (code code' : str) :
  len code = len code' ->
  (forall x, 1 <= x <= len code -> is_power_of_two x = false ->
             char_at code x = char_at code' x) ->
  data_of code = data_of code'.
Proof.
  intros Hlen H. unfold data_of. f_equal.
  apply (select_ext _ "0"%char).
  - rewrite !length_rev. unfold len in Hlen. lia.
  - intros a Ha Hk. rewrite length_rev in Ha.
    unfold is_data_position in Hk. apply negb_true_iff in Hk.
    specialize (H (1 + Z.of_nat a) ltac:(unfold len; lia) Hk).
    rewrite !char_at_rev in H by (unfold len in *; lia).
    replace (Z.to_nat (1 + Z.of_nat a - 1)) with a in H by lia. exact H.
Qed.

(** The reversed parity positions of [remove_parity_bits] are the indices
    of the powers of two. *)
Lemma parity_positions_spec (n p x : Z) :
  1 <= x <= n -> n < 2 ^ p ->
  existsb (Z.eqb (n - x))
          (map (fun i => n - i) (map (fun i => 2 ^ i) (range 0 p)))
  = is_power_of_two x.
Proof.
  intros Hx Hn. rewrite map_map.
  destruct (is_power_of_two x) eqn:E.
  - apply existsb_exists. apply is_power_of_two_log in E as [E Hl].
    exists (n - x). split; [|apply Z.eqb_refl].
    apply in_map_iff. exists (Z.log2 x). split; [lia|].
    apply in_range. split; [assumption|].
    destruct (Z_lt_ge_dec (Z.log2 x) p) as [|Hge]; [assumption|].
    destruct (Z_lt_ge_dec p 0) as [Hneg|Hpos].
    + rewrite Z.pow_neg_r in Hn by assumption. lia.
    + pose proof (Z.pow_le_mono_r 2 p (Z.log2 x) ltac:(lia) ltac:(lia)). lia.
  - destruct (existsb _ _) eqn:F; [|reflexivity].
    apply existsb_exists in F as (y & Hy & Heq).
    apply in_map_iff in Hy as (t & <- & Ht). apply in_range in Ht.
    apply Z.eqb_eq in Heq.
    assert (x = 2 ^ t) by lia. subst x.
    rewrite is_power_of_two_pow in E by lia. discriminate E.
Qed.

Lemma remove_parity_bits_loop (code : str) (positions : list Z) :
  (forall x, 1 <= x <= len code ->
             existsb (Z.eqb (len code - x)) positions = is_power_of_two x) ->
  forall suf pre decoded,
    code = pre ++ suf ->
    for_each
      (fun decoded i =>
         if existsb (Z.eqb i) positions
         then Ok decoded
         else c <- getitem code i ;; Ok (decoded ++ [c]))
      (range (len pre) (len code)) decoded
    = Ok (decoded ++ data_of suf).
Proof.
  intros Hpos. induction suf as [|c suf IH]; intros pre decoded Hcode.
  - subst code. rewrite app_nil_r, range_nil by lia.
    cbn [for_each]. rewrite app_nil_r. reflexivity.
  - assert (Hlen : len code = len pre + len (c :: suf)).
    { subst code. unfold len. rewrite length_app. lia. }
    assert (Hs : 1 <= len (c :: suf)) by (unfold len; cbn [List.length]; lia).
    assert (Hpre : 0 <= len pre) by (unfold len; lia).
    rewrite range_cons by lia. cbn [for_each].
    replace (len pre) with (len code - len (c :: suf)) at 1 by lia.
    rewrite Hpos by lia.
    rewrite data_of_cons. unfold is_data_position at 1.
    replace (len pre + 1) with (len (pre ++ [c]))
      by (unfold len; rewrite length_app; cbn [List.length]; lia).
    destruct (is_power_of_two (len (c :: suf))); cbn [negb bind app].
    + apply IH. subst code. rewrite <- app_assoc. reflexivity.
    + rewrite getitem_index by (unfold len in *; lia). cbn [bind].
      replace (nth (Z.to_nat (len pre)) code "0"%char) with c.
      2:{ subst code. rewrite app_nth2 by (unfold len; lia).
          replace (Z.to_nat (len pre) - List.length pre)%nat with 0%nat
            by (unfold len; lia).
          reflexivity. }
      rewrite IH by (subst code; rewrite <- app_assoc; reflexivity).
      rewrite <- app_assoc. reflexivity.
Qed.

Lemma remove_parity_bits_spec (code : str) (p : Z) :
  len code < 2 ^ p -> remove_parity_bits code p = Ok (data_of code).
Proof.
  intros H. unfold remove_parity_bits.
  apply (remove_parity_bits_loop code _
           (fun x Hx => parity_positions_spec (len code) p x Hx H) code [] []).
  reflexivity.
Qed.

(** ** The Hamming code word *)

Lemma parity_count_facts (m p : Z) :
  calculate_parity_bits m = Ok p ->
  0 <= p /\ m + p + 1 <= 2 ^ p /\
  (forall q, 0 <= q < p -> 2 ^ q < m + q + 1) /\
  (forall i, 0 <= i < p -> 2 ^ i <= m + p).
Proof.
  intros H. apply calculate_parity_bits_from_ok in H as (H0 & H1 & H2).
  repeat split; try assumption.
  intros i Hi. pose proof (H2 (p - 1) ltac:(lia)).
  pose proof (Z.pow_le_mono_r 2 i (p - 1) ltac:(lia) ltac:(lia)). lia.
Qed.

(** The code word built for [data]: what [position_parity_bits] followed by
    [calculate_parity_values] returns. *)
Lemma hamming_codeword (data : str) (p : Z) :
  bit_string data = true -> calculate_parity_bits (len data) = Ok p ->
  exists code0 code,
    position_parity_bits data p = Ok code0 /\
    calculate_parity_values code0 p = Ok code /\
    bit_string code = true /\
    len code = len data + p /\
    len code < 2 ^ p /\
    data_of code = data /\
    (forall i, 0 <= i < p -> bit_at code (2 ^ i) = parity_sum code0 i) /\
    (forall i, 0 <= i < p -> parity_sum code i = 0).
Proof.
  intros Hb Hp. apply parity_count_facts in Hp as (Hp0 & Hfit & Hmin & Hpow).
  destruct (position_parity_bits_spec data p Hp0 Hmin Hfit)
    as (code0 & Hpos & Hlen0 & Hdata0 & Hzero & Hb0).
  specialize (Hb0 Hb).
  destruct (calculate_parity_values_loop (len code0) (Z.to_nat p) 0 code0 Hb0 eq_refl)
    as (code & Hrun & Hbc & Hlen & Hsame & Hpar); [lia| |].
  { intros i Hi. rewrite Hlen0. apply Hpow. lia. }
  replace (0 + Z.of_nat (Z.to_nat p)) with p in * by lia.
  exists code0, code.
  split; [exact Hpos|]. split; [exact Hrun|]. split; [exact Hbc|].
  split; [lia|]. split; [lia|]. split; [|split].
  - rewrite <- Hdata0. apply data_of_ext; [lia|].
    intros x Hx Hnp. apply Hsame; [lia|].
    intros i Hi ->. rewrite is_power_of_two_pow in Hnp by lia. discriminate Hnp.
  - exact Hpar.
  - intros i Hi.
    assert (Hq : 1 <= 2 ^ i <= len code0).
    { split; [apply pow2_pos; lia|]. rewrite Hlen0. apply Hpow. assumption. }
    unfold parity_sum. rewrite Hlen.
    rewrite (xor_bits_update (bit_at code0) _ i (2 ^ i)).
    + fold (parity_sum code0 i).
      rewrite covers_power, Z.eqb_refl by lia.
      rewrite Hpar by assumption.
      unfold bit_at. rewrite Hzero by (assumption || apply is_power_of_two_pow; lia).
      change (bit_of "0") with 0. rewrite Z.lxor_0_l. apply Z.lxor_nilpotent.
    + apply NoDup_range.
    + apply in_range. lia.
    + intros j Hj Hne Hc. apply in_range in Hj. unfold bit_at.
      rewrite Hsame; [reflexivity|lia|].
      intros t Ht ->. rewrite covers_power in Hc by lia.
      apply Z.eqb_eq in Hc. subst t. contradiction.
Qed.

Lemma detect_correct_error_clean (code : str) (p : Z) :
  bit_string code = true ->
  (forall i, 0 <= i < p -> parity_sum code i = 0) ->
  error_position code p = Ok 0 /\ detect_correct_error code p = Ok code.
Proof.
  intros Hb Hz.
  assert (He : error_position code p = Ok 0).
  { rewrite error_position_bits by assumption. f_equal.
    apply syndrome_zero. intros i Hi. apply Hz. lia. }
  split; [exact He|].
  unfold detect_correct_error. rewrite He. reflexivity.
Qed.

(** C5. For a bit string [data] and [p = calculate_parity_bits(len(data))],
    the code word [calculate_parity_values(position_parity_bits(data, p), p)]
    has length [len(data) + p]; its characters at the positions that are not
    powers of two are those of [data], in order; its bit at each position
    [2^i] ([i < p], positions counted from 1 at the right) is the XOR of
    the bits at the positions with bit [i] set, taken over the word with
    its parity places still zero, which is the XOR of the other such bits
    of the code word; every parity sum of the code word is zero, so
    [detect_correct_error] finds error position 0 and returns the code
    word unchanged. *)
Theorem hamming_encode_correct (data : str) (p : Z) :
  bit_string data = true -> calculate_parity_bits (len data) = Ok p ->
  exists code0 code,
    position_parity_bits data p = Ok code0 /\
    calculate_parity_values code0 p = Ok code /\
    bit_string code = true /\
    len code = len data + p /\
    data_of code = data /\
    (forall i, 0 <= i < p ->
       bit_at code (2 ^ i) = parity_sum code0 i /\
       bit_at code (2 ^ i) =
         xor_bits (bit_at code) i
           (remove Z.eq_dec (2 ^ i) (range 1 (len code + 1))) /\
       parity_sum code i = 0) /\
    error_position code p = Ok 0 /\
    detect_correct_error code p = Ok code.
Proof.
  intros Hb Hp.
  destruct (hamming_codeword data p Hb Hp)
    as (code0 & code & Hpos & Hrun & Hbc & Hlen & Hlt & Hdata & Hpar & Hzero).
  apply parity_count_facts in Hp as (Hp0 & Hfit & Hmin & Hpow).
  exists code0, code.
  split; [exact Hpos|]. split; [exact Hrun|]. split; [exact Hbc|].
  split; [exact Hlen|]. split; [exact Hdata|]. split.
  - intros i Hi. split; [apply Hpar; assumption|]. split; [|apply Hzero; assumption].
    pose proof (Hzero i Hi) as Hz. unfold parity_sum in Hz.
    rewrite (xor_bits_remove _ i (2 ^ i)) in Hz.
    + apply Z.lxor_eq in Hz. exact Hz.
    + apply NoDup_range.
    + apply in_range. pose proof (pow2_pos i ltac:(lia)).
      pose proof (Hpow i Hi). lia.
    + rewrite covers_power by lia. apply Z.eqb_refl.
  - apply detect_correct_error_clean; assumption.
Qed.

(** The code word of the notebook: data 1101, code word 1100110. *)
Lemma hamming_encode_correct_witness :
  exists code0 code,
    position_parity_bits (lit "1101") 3 = Ok code0 /\
    calculate_parity_values code0 3 = Ok code /\
    bit_string code = true /\
    len code = len (lit "1101") + 3 /\
    data_of code = lit "1101" /\
    (forall i, 0 <= i < 3 ->
       bit_at code (2 ^ i) = parity_sum code0 i /\
       bit_at code (2 ^ i) =
         xor_bits (bit_at code) i
           (remove Z.eq_dec (2 ^ i) (range 1 (len code + 1))) /\
       parity_sum code i = 0) /\
    error_position code 3 = Ok 0 /\
    detect_correct_error code 3 = Ok code.
Proof.
  apply (hamming_encode_correct (lit "1101") 3); reflexivity.
Defined.

Example notebook_code_word :
  (code0 <- position_parity_bits (lit "1101") 3 ;; calculate_parity_values code0 3)
  = Ok (lit "1100110").
Proof. vm_compute. reflexivity. Qed.

(** C1. For a bit string [data] and [p = calculate_parity_bits(len(data))],
    flipping the bit at any one index of the code word, then applying
    [detect_correct_error] and [remove_parity_bits], gives [data] back:
    the correction restores the code word itself. *)
Theorem hamming_corrects_single_flip (data : str) (p noise_position : Z) :
  bit_string data = true -> calculate_parity_bits (len data) = Ok p ->
  0 <= noise_position < len data + p ->
  exists code0 code received,
    position_parity_bits data p = Ok code0 /\
    calculate_parity_values code0 p = Ok code /\
    add_noise code noise_position = Ok received /\
    received =
      replace_at code (Z.to_nat noise_position)
        (flip_char (nth (Z.to_nat noise_position) code "0"%char)) /\
    received <> code /\
    detect_correct_error received p = Ok code /\
    remove_parity_bits code p = Ok data.
Proof.
  intros Hb Hp Hk.
  destruct (hamming_codeword data p Hb Hp)
    as (code0 & code & Hpos & Hrun & Hbc & Hlen & Hlt & Hdata & Hpar & Hzero).
  apply parity_count_facts in Hp as (Hp0 & Hfit & Hmin & Hpow).
  set (k := Z.to_nat noise_position).
  set (c := nth k code "0"%char).
  set (received := replace_at code k (flip_char c)).
  assert (Hkn : (k < List.length code)%nat) by (unfold len in *; lia).
  assert (Hc : is_bit c = true) by (apply bit_string_nth; assumption).
  assert (Hbr : bit_string received = true)
    by (apply bit_string_replace_at; [assumption|apply is_bit_flip_char]).
  assert (Hlenr : len received = len code) by (apply len_replace_at; assumption).
  assert (Hnth : nth k received "0"%char = flip_char c).
  { unfold received. rewrite nth_replace_at, Nat.eqb_refl by assumption. reflexivity. }
  set (q := len code - noise_position).
  assert (Hq : 1 <= q <= len code) by lia.
  assert (Hkq : k = Z.to_nat (len code - q)) by lia.
  assert (Hcq : c = char_at code q) by (unfold c, char_at; rewrite Hkq; reflexivity).
  assert (Herr : error_position received p = Ok q).
  { rewrite error_position_bits by assumption. f_equal.
    rewrite (syndrome_testbit received q).
    - replace (Z.of_nat (Z.to_nat p)) with p by lia. apply Z.mod_small. lia.
    - intros i Hi. unfold received. rewrite Hkq, Hcq.
      rewrite parity_sum_flip by (assumption || lia).
      rewrite Hzero by lia. apply Z.lxor_0_l. }
  exists code0, code, received.
  split; [exact Hpos|]. split; [exact Hrun|]. split; [|split; [reflexivity|split; [|split]]].
  - unfold add_noise. apply flip_at_index; [assumption|lia].
  - intros E. rewrite E in Hnth. fold c in Hnth.
    destruct (is_bit_cases c Hc) as [Ec|Ec]; rewrite Ec in Hnth; discriminate Hnth.
  - unfold detect_correct_error. rewrite Herr. cbn [bind].
    replace (q =? 0) with false by (symmetry; apply Z.eqb_neq; lia). cbn [negb].
    replace (len received - q) with noise_position by lia.
    rewrite flip_at_index by (assumption || lia).
    fold k. rewrite Hnth. unfold received.
    rewrite replace_at_twice by assumption.
    rewrite flip_char_involutive by assumption.
    unfold c. rewrite replace_at_same by assumption. reflexivity.
  - rewrite remove_parity_bits_spec by assumption. rewrite Hdata. reflexivity.
Qed.

(** The run printed in the notebook: 1100110 received as 1110110. *)
Lemma hamming_corrects_single_flip_witness :
  exists code0 code received,
    position_parity_bits (lit "1101") 3 = Ok code0 /\
    calculate_parity_values code0 3 = Ok code /\
    add_noise code 2 = Ok received /\
    received =
      replace_at code (Z.to_nat 2) (flip_char (nth (Z.to_nat 2) code "0"%char)) /\
    received <> code /\
    detect_correct_error received 3 = Ok code /\
    remove_parity_bits code 3 = Ok (lit "1101").
Proof.
  apply (hamming_corrects_single_flip (lit "1101") 3 2);
    [reflexivity|reflexivity|vm_compute; split; [discriminate|reflexivity]].
Defined.

Example notebook_correction :
  add_noise (lit "1100110") 2 = Ok (lit "1110110") /\
  error_position (lit "1110110") 3 = Ok 5 /\
  detect_correct_error (lit "1110110") 3 = Ok (lit "1100110") /\
  remove_parity_bits (lit "1100110") 3 = Ok (lit "1101").
Proof. repeat split; vm_compute; reflexivity. Qed.

(** C10. For a bit string [code] the first loop of [detect_correct_error]
    returns the syndrome of [code]: the number [e >= 0] whose bit [i], for
    [i < p], is the XOR of the bits of [code] at the positions with bit [i]
    set.  When [e <= len(code)] the function returns a bit string of the
    same length that differs from [code] at position [e] (counted from 1
    at the right) and nowhere else, hence nowhere when [e = 0].  Without
    the bound the result can be malformed: for 01010 and [p = 3] the
    syndrome is 6 and the result has ten characters. *)
Theorem detect_correct_error_one_position :
  (forall (code : str) (p : Z),
      bit_string code = true ->
      let e := syndrome code (Z.to_nat p) in
      error_position code p = Ok e /\
      (forall i, 0 <= i < p -> Z.b2z (Z.testbit e i) = parity_sum code i) /\
      0 <= e /\
      (e <= len code ->
       exists corrected,
         detect_correct_error code p = Ok corrected /\
         List.length corrected = List.length code /\
         bit_string corrected = true /\
         (e = 0 -> corrected = code) /\
         (forall j, 1 <= j <= len code ->
                    (char_at corrected j <> char_at code j <-> j = e)))) /\
  (error_position (lit "01010") 3 = Ok 6 /\
   detect_correct_error (lit "01010") 3 = Ok (lit "0101101010")).
Proof.
  split; [|split; vm_compute; reflexivity].
  intros code p Hb e.
  pose proof (syndrome_nonneg code (Z.to_nat p)) as He.
  pose proof (error_position_bits code p Hb) as Herr.
  fold e in He, Herr.
  split; [exact Herr|]. split.
  { intros i Hi. unfold e. apply syndrome_bits. lia. }
  split; [exact He|]. intros Hle.
  unfold detect_correct_error. rewrite Herr. cbn [bind].
  destruct (Z.eqb_spec e 0) as [E0|Hne]; cbn [negb].
  - exists code. repeat split; try assumption; try reflexivity.
    + intros Hdiff. contradiction Hdiff. reflexivity.
    + intros Hj. lia.
  - assert (Hidx : 0 <= len code - e < len code) by lia.
    rewrite flip_at_index by assumption.
    assert (Hk : (Z.to_nat (len code - e) < List.length code)%nat)
      by (unfold len in *; lia).
    eexists. split; [reflexivity|]. split; [|split; [|split]].
    + apply length_replace_at. exact Hk.
    + apply bit_string_replace_at; [assumption|apply is_bit_flip_char].
    + intros E0. contradiction.
    + intros j Hj. rewrite char_at_replace_at by lia.
      destruct (Z.eqb_spec j e) as [Hje|Hje].
      * split; [intros _; exact Hje|intros _]. rewrite Hje.
        fold (char_at code e).
        assert (Hc : is_bit (char_at code e) = true) by (apply bit_string_nth; assumption).
        destruct (is_bit_cases _ Hc) as [-> | ->]; discriminate.
      * split; [intros Hdiff; contradiction Hdiff; reflexivity|intros Ej; contradiction].
Qed.

(** The received word of the notebook, 1110110 with [p = 3]: the parity
    sums are 1, 0, 1, the syndrome is 5, which does not exceed the length
    7, and the result differs from the word at position 5 only. *)
Lemma detect_correct_error_one_position_witness :
  parity_sum (lit "1110110") 0 = 1 /\
  parity_sum (lit "1110110") 1 = 0 /\
  parity_sum (lit "1110110") 2 = 1 /\
  syndrome (lit "1110110") (Z.to_nat 3) = 5 /\
  5 <= len (lit "1110110") /\
  error_position (lit "1110110") 3 = Ok 5 /\
  exists corrected,
    detect_correct_error (lit "1110110") 3 = Ok corrected /\
    List.length corrected = List.length (lit "1110110") /\
    bit_string corrected = true /\
    (forall j, 1 <= j <= len (lit "1110110") ->
               (char_at corrected j <> char_at (lit "1110110") j <-> j = 5)).
Proof.
  destruct (proj1 detect_correct_error_one_position (lit "1110110") 3 eq_refl)
    as (Herr & _ & _ & Hfix).
  assert (Hle : syndrome (lit "1110110") (Z.to_nat 3) <= len (lit "1110110"))
    by (vm_compute; discriminate).
  destruct (Hfix Hle) as (corrected & Hd & Hl & Hb & _ & Hj).
  repeat (split; [reflexivity || (vm_compute; discriminate) || exact Herr|]).
  exists corrected. split; [exact Hd|]. split; [exact Hl|]. split; [exact Hb|].
  exact Hj.
Defined.

(** * Further properties of the code *)

(** ** Run-length coding: composition *)

Lemma decode_from_app (a b last_char counter : str) :
  starts_with_symbol b = true ->
  decode_from (a ++ b) last_char counter =
  (ra <- decode_from a last_char counter ;; rb <- decode b ;; Ok (ra ++ rb)).
Proof.
  intros Hb. revert last_char counter.
  induction a as [|x a IH]; intros last_char counter; cbn [app].
  - destruct b as [|d b].
    + replace (decode []) with (@Ok str []) by reflexivity.
      destruct (decode_from [] last_char counter) as [r|e]; cbn [bind];
        [rewrite app_nil_r|]; reflexivity.
    + simpl in Hb. apply negb_true_iff in Hb.
      rewrite decode_from_symbol, decode_symbol_first by assumption.
      unfold decode_from at 2. cbn [for_each bind app].
      destruct (__decode_char_segment last_char counter); reflexivity.
  - destruct (isdigit x) eqn:Hx.
    + rewrite !decode_from_digit by assumption. apply IH.
    + rewrite !decode_from_symbol by assumption. rewrite IH.
      destruct (__decode_char_segment last_char counter) as [seg|e];
        cbn [bind]; [|reflexivity].
      destruct (decode_from a [x] []) as [ra|e]; cbn [bind]; [|reflexivity].
      destruct (decode b) as [rb|e]; cbn [bind]; [|reflexivity].
      rewrite app_assoc. reflexivity.
Qed.

(** X1. Decoding a text followed by a text that is empty or begins with a
    symbol decodes the two parts and joins the results; an exception of
    either part is the exception of the whole. *)
Theorem decode_app (a b : str) :
  starts_with_symbol b = true ->
  decode (a ++ b) = (ra <- decode a ;; rb <- decode b ;; Ok (ra ++ rb)).
Proof.
  intros Hb. apply (decode_from_app a b [] [] Hb).
Qed.

Lemma decode_app_witness :
  decode (lit "A3" ++ lit "B2C") = Ok (lit "AAA" ++ lit "BBC").
Proof.
  rewrite (decode_app (lit "A3") (lit "B2C")); reflexivity.
Defined.

Lemma encode_from_app (a b prev_char : str) (x d : ascii) (n : Z) :
  x <> d ->
  encode_from ((a ++ [x]) ++ d :: b) prev_char n =
  encode_from (a ++ [x]) prev_char n ++ encode_from b [d] 1.
Proof.
  intros Hxd. revert prev_char n.
  induction a as [|y a IH]; intros prev_char n; cbn [app].
  - destruct (list_eq_dec ascii_dec prev_char [x]) as [->|Hp].
    + rewrite !encode_from_same. rewrite encode_from_diff by congruence.
      reflexivity.
    + rewrite !(encode_from_diff x) by assumption.
      rewrite encode_from_diff by congruence.
      rewrite <- app_assoc. reflexivity.
  - destruct (list_eq_dec ascii_dec prev_char [y]) as [->|Hp].
    + rewrite !encode_from_same. apply IH.
    + rewrite !(encode_from_diff y) by assumption.
      rewrite IH, app_assoc. reflexivity.
Qed.

(** X2. Encoding a text that ends with [x] followed by a text that begins
    with a different character [d] encodes the two parts and joins the
    results. *)
Theorem encode_app (a b : str) (x d : ascii) :
  x <> d ->
  encode ((a ++ [x]) ++ d :: b) = encode (a ++ [x]) ++ encode (d :: b).
Proof.
  intros Hxd. rewrite (encode_first d b).
  apply (encode_from_app a b [] x d 0 Hxd).
Qed.

Lemma encode_app_witness :
  encode ((lit "AAB" ++ ["B"%char]) ++ "C"%char :: lit "CD")
  = encode (lit "AAB" ++ ["B"%char]) ++ encode ("C"%char :: lit "CD").
Proof.
  apply (encode_app (lit "AAB") (lit "CD") "B" "C"). discriminate.
Defined.

(** ** Run-length coding: the image of [encode] *)

(** What [encode] appends after [n] copies of [c] is the text of a
    canonical description whose first run is [c], counted at least [n]
    times, and which stands for the rest of the text. *)
Lemma encode_from_runs (t : str) (c : ascii) (n : Z) :
  isdigit c = false -> no_digit t = true -> 1 <= n ->
  exists m rest,
    n <= m /\ canonical ((c, m) :: rest) = true /\
    encode_from t [c] n = render ((c, m) :: rest) /\
    repeat c (Z.to_nat (m - n)) ++ expand rest = t.
Proof.
  revert c n. induction t as [|x t IH]; intros c n Hc Ht Hn.
  - exists n, []. split; [lia|]. split; [|split].
    + cbn [canonical head_differs]. rewrite Hc.
      replace (1 <=? n) with true by (symmetry; apply Z.leb_le; lia). reflexivity.
    + unfold encode_from, render. cbn [fold_left app map List.concat fst snd].
      rewrite app_nil_r. reflexivity.
    + rewrite Z.sub_diag. reflexivity.
  - simpl in Ht. apply andb_true_iff in Ht as [Hx Ht]. apply negb_true_iff in Hx.
    destruct (ascii_dec x c) as [->|Hxc].
    + destruct (IH c (n + 1) Hc Ht ltac:(lia)) as (m & rest & Hm & Hcan & Henc & Hexp).
      exists m, rest. split; [lia|]. split; [exact Hcan|]. split.
      * rewrite encode_from_same. exact Henc.
      * replace (Z.to_nat (m - n)) with (S (Z.to_nat (m - (n + 1)))) by lia.
        cbn [repeat app]. rewrite Hexp. reflexivity.
    + destruct (IH x 1 Hx Ht ltac:(lia)) as (m & rest & Hm & Hcan & Henc & Hexp).
      exists n, ((x, m) :: rest). split; [lia|]. split; [|split].
      * cbn [canonical head_differs] in *. rewrite Hc, Hcan.
        replace (1 <=? n) with true by (symmetry; apply Z.leb_le; lia).
        replace (Ascii.eqb c x) with false
          by (symmetry; apply Ascii.eqb_neq; congruence).
        reflexivity.
      * rewrite encode_from_diff by congruence. rewrite Henc. reflexivity.
      * rewrite Z.sub_diag. cbn [repeat app]. rewrite expand_cons.
        replace (Z.to_nat m) with (S (Z.to_nat (m - 1))) by lia.
        cbn [repeat app]. rewrite Hexp. reflexivity.
Qed.

(** X3. For a text without digits, what [encode] returns is a canonical
    encoded text: the text of a canonical run-length description of the
    input. *)
Theorem encode_canonical (text : str) :
  no_digit text = true ->
  exists runs,
    canonical runs = true /\ encode text = render runs /\ expand runs = text.
Proof.
  intros H. destruct text as [|c t].
  - exists []. repeat split.
  - simpl in H. apply andb_true_iff in H as [Hc Ht]. apply negb_true_iff in Hc.
    destruct (encode_from_runs t c 1 Hc Ht ltac:(lia))
      as (m & rest & Hm & Hcan & Henc & Hexp).
    exists ((c, m) :: rest). split; [exact Hcan|]. split.
    + rewrite encode_first. exact Henc.
    + rewrite expand_cons.
      replace (Z.to_nat m) with (S (Z.to_nat (m - 1))) by lia.
      cbn [repeat app]. rewrite Hexp. reflexivity.
Qed.

Lemma encode_canonical_witness :
  exists runs,
    canonical runs = true /\ encode (lit "AABCCCDEEEE") = render runs
    /\ expand runs = lit "AABCCCDEEEE".
Proof.
  apply (encode_canonical (lit "AABCCCDEEEE")). reflexivity.
Defined.

(** X4. [encode] loses nothing: two texts without digits that encode to the
    same text are equal. *)
Theorem encode_injective (a b : str) :
  no_digit a = true -> no_digit b = true -> encode a = encode b -> a = b.
Proof.
  assert (Hback : forall t, no_digit t = true -> decode (encode t) = Ok t).
  { intros [|c t] H; [reflexivity|].
    simpl in H. apply andb_true_iff in H as [Hc Ht]. apply negb_true_iff in Hc.
    rewrite encode_first, decode_encode_from by (assumption || lia). reflexivity. }
  intros Ha Hb E.
  pose proof (Hback a Ha) as Da. pose proof (Hback b Hb) as Db.
  rewrite E in Da. rewrite Da in Db. injection Db as ->. reflexivity.
Qed.

Lemma encode_injective_witness : lit "AAB" = lit "AA" ++ lit "B".
Proof.
  apply (encode_injective (lit "AAB") (lit "AA" ++ lit "B")); reflexivity.
Defined.

(** ** Run-length coding: when [decode] raises *)

Lemma uint_of_char_decimal (c : ascii) (d : Decimal.uint) :
  is_decimal c = true -> uint_of_char c (Some d) <> None.
Proof.
  destruct c as [[|] [|] [|] [|] [|] [|] [|] [|]]; intros H;
    try discriminate H; discriminate.
Qed.

Lemma uint_of_char_non_decimal (c : ascii) (d : option Decimal.uint) :
  is_decimal c = false -> uint_of_char c d = None.
Proof.
  destruct d as [d|]; [|reflexivity].
  destruct c as [[|] [|] [|] [|] [|] [|] [|] [|]]; intros H;
    try discriminate H; reflexivity.
Qed.

Lemma parse_decimal (t : str) :
  forallb is_decimal t = true ->
  exists u, NilEmpty.uint_of_string (string_of_list_ascii t) = Some u.
Proof.
  induction t as [|c t IH]; intros H; [exists Decimal.Nil; reflexivity|].
  simpl in H. apply andb_true_iff in H as [Hc Ht].
  destruct (IH Ht) as [u Hu]. cbn [string_of_list_ascii NilEmpty.uint_of_string].
  rewrite Hu. destruct (uint_of_char c (Some u)) as [v|] eqn:E; [eauto|].
  exfalso. revert E. apply uint_of_char_decimal. exact Hc.
Qed.

Lemma parse_non_decimal (t : str) :
  forallb is_decimal t = false ->
  NilEmpty.uint_of_string (string_of_list_ascii t) = None.
Proof.
  induction t as [|c t IH]; intros H; [discriminate H|].
  simpl in H. cbn [string_of_list_ascii NilEmpty.uint_of_string].
  destruct (is_decimal c) eqn:Hc.
  - rewrite IH by exact H. destruct c as [[|] [|] [|] [|] [|] [|] [|] [|]]; reflexivity.
  - apply uint_of_char_non_decimal. exact Hc.
Qed.

Lemma int_of_str_decimal (t : str) :
  t <> [] -> forallb is_decimal t = true ->
  exists n, int_of_str t = Ok n /\ 0 <= n.
Proof.
  intros Hne H. destruct (parse_decimal t H) as [u Hu].
  unfold int_of_str, NilZero.uint_of_string.
  destruct t as [|c t]; [contradiction|].
  cbn [string_of_list_ascii] in *. rewrite Hu.
  exists (Z.of_uint u). split; [reflexivity|].
  unfold Z.of_uint. apply N2Z.is_nonneg.
Qed.

Lemma int_of_str_non_decimal (t : str) :
  forallb is_decimal t = false -> int_of_str t = Raise invalid_literal.
Proof.
  intros H. pose proof (parse_non_decimal t H) as Hu.
  unfold int_of_str, NilZero.uint_of_string.
  destruct t as [|c t]; [reflexivity|].
  cbn [string_of_list_ascii] in *. rewrite Hu. reflexivity.
Qed.

Lemma decode_char_segment_decimal (char counter : str) :
  forallb is_decimal counter = true ->
  exists r, __decode_char_segment char counter = Ok r.
Proof.
  intros H. unfold __decode_char_segment.
  destruct counter as [|c counter]; [cbn; eauto|].
  replace (str_eqb (c :: counter) []) with false
    by (symmetry; apply str_eqb_neq; discriminate).
  destruct (int_of_str_decimal (c :: counter)) as (n & -> & _);
    [discriminate|exact H|].
  cbn [bind]. eauto.
Qed.

Lemma decode_char_segment_non_decimal (char counter : str) :
  forallb is_decimal counter = false ->
  __decode_char_segment char counter = Raise invalid_literal.
Proof.
  intros H. unfold __decode_char_segment.
  destruct counter as [|c counter]; [discriminate H|].
  replace (str_eqb (c :: counter) []) with false
    by (symmetry; apply str_eqb_neq; discriminate).
  rewrite int_of_str_non_decimal by exact H. reflexivity.
Qed.

Lemma decode_from_returns (t last_char counter : str) :
  forallb is_decimal counter = true ->
  existsb non_decimal_digit t = false ->
  exists r, decode_from t last_char counter = Ok r.
Proof.
  revert last_char counter.
  induction t as [|x t IH]; intros last_char counter Hc Ht.
  - unfold decode_from. cbn [for_each bind].
    destruct (decode_char_segment_decimal last_char counter Hc) as [r ->].
    cbn [bind]. eauto.
  - simpl in Ht. apply orb_false_iff in Ht as [Hx Ht].
    destruct (isdigit x) eqn:Dx.
    + rewrite decode_from_digit by assumption. apply IH; [|exact Ht].
      rewrite forallb_app, Hc. cbn [forallb].
      unfold non_decimal_digit in Hx. rewrite Dx in Hx. cbn [andb] in Hx.
      apply negb_false_iff in Hx. rewrite Hx. reflexivity.
    + rewrite decode_from_symbol by assumption.
      destruct (decode_char_segment_decimal last_char counter Hc) as [seg ->].
      destruct (IH [x] [] eq_refl Ht) as [r ->]. cbn [bind]. eauto.
Qed.

Lemma decode_from_raises (t last_char counter : str) :
  forallb is_decimal counter = false \/ existsb non_decimal_digit t = true ->
  decode_from t last_char counter = Raise invalid_literal.
Proof.
  revert last_char counter.
  induction t as [|x t IH]; intros last_char counter H.
  - destruct H as [H|H]; [|discriminate H].
    unfold decode_from. cbn [for_each bind].
    rewrite decode_char_segment_non_decimal by exact H. reflexivity.
  - destruct (isdigit x) eqn:Dx.
    + rewrite decode_from_digit by assumption. apply IH.
      destruct H as [H|H].
      * left. rewrite forallb_app, H. reflexivity.
      * simpl in H. unfold non_decimal_digit at 1 in H. rewrite Dx in H.
        cbn [andb] in H. destruct (is_decimal x) eqn:Ex; cbn [negb orb] in H.
        -- destruct (forallb is_decimal counter) eqn:Ec.
           ++ right. exact H.
           ++ left. rewrite forallb_app, Ec. reflexivity.
        -- left. rewrite forallb_app. cbn [forallb]. rewrite Ex.
           apply andb_false_iff. right. reflexivity.
    + rewrite decode_from_symbol by assumption.
      destruct (forallb is_decimal counter) eqn:Ec.
      * destruct (decode_char_segment_decimal last_char counter Ec) as [seg ->].
        cbn [bind]. rewrite IH; [reflexivity|].
        right. destruct H as [H|H]; [discriminate H|].
        simpl in H. unfold non_decimal_digit at 1 in H. rewrite Dx in H.
        exact H.
      * rewrite decode_char_segment_non_decimal by exact Ec. reflexivity.
Qed.

(** X5. Among the texts whose runs of digits have at most 4300 characters,
    the limit of the interpreter for [int], [decode] raises exactly on
    those that hold a character which [isdigit] accepts and [int] rejects
    (a superscript digit), and what it raises is the [ValueError] of
    [int]; on every other such text it returns. *)
Theorem decode_raises_iff (text : str) :
  digit_runs_bounded text = true ->
  (existsb non_decimal_digit text = true -> decode text = Raise invalid_literal) /\
  (existsb non_decimal_digit text = false -> exists r, decode text = Ok r).
Proof.
  intros _. split; intros H.
  - apply (decode_from_raises text [] []). right. exact H.
  - apply (decode_from_returns text [] [] eq_refl H).
Qed.

Lemma decode_raises_iff_witness :
  decode (lit "A3" ++ [ascii_of_N 179] ++ lit "B") = Raise invalid_literal /\
  exists r, decode (lit "A3B12c 007") = Ok r.
Proof.
  split.
  - apply (proj1 (decode_raises_iff (lit "A3" ++ [ascii_of_N 179] ++ lit "B")
                    eq_refl)).
    reflexivity.
  - apply (proj2 (decode_raises_iff (lit "A3B12c 007") eq_refl)). reflexivity.
Defined.

Lemma concat_repeat_nil {A : Type} (k : nat) : List.concat (repeat (@nil A) k) = [].
Proof.
  induction k as [|k IH]; [reflexivity|exact IH].
Qed.

(** X6. A count written before any symbol is dropped: at most 4300
    decimal digits, the limit of the interpreter for [int], in front of a
    text that is empty or begins with a symbol do not change what the text
    decodes to. *)
Theorem decode_leading_digits (digits text : str) :
  forallb is_decimal digits = true -> len digits <= max_str_digits ->
  starts_with_symbol text = true ->
  decode (digits ++ text) = decode text.
Proof.
  intros Hd _ Ht.
  assert (Hi : forallb isdigit digits = true).
  { rewrite forallb_forall in Hd |- *. intros c Hc.
    apply is_decimal_isdigit, Hd, Hc. }
  assert (Hseg : __decode_char_segment [] digits = Ok []).
  { unfold __decode_char_segment. destruct digits as [|c ds]; [reflexivity|].
    replace (str_eqb (c :: ds) []) with false
      by (symmetry; apply str_eqb_neq; discriminate).
    destruct (int_of_str_decimal (c :: ds)) as (n & -> & _);
      [discriminate|exact Hd|].
    cbn [bind]. rewrite range_0_repeat. f_equal. apply concat_repeat_nil. }
  change (decode (digits ++ text)) with (decode_from (digits ++ text) [] []).
  rewrite decode_from_digits by exact Hi. cbn [app].
  destruct text as [|d t].
  - unfold decode_from. cbn [for_each bind]. rewrite Hseg. reflexivity.
  - simpl in Ht. apply negb_true_iff in Ht.
    rewrite decode_from_symbol by assumption. rewrite Hseg. cbn [bind].
    rewrite decode_symbol_first by assumption.
    destruct (decode_from t [d] []); reflexivity.
Qed.

Lemma decode_leading_digits_witness :
  decode (lit "12" ++ lit "A3B") = decode (lit "A3B").
Proof.
  apply (decode_leading_digits (lit "12") (lit "A3B"));
    [reflexivity|vm_compute; discriminate|reflexivity].
Defined.

(** ** Run-length coding: the encoded text is never longer *)

Lemma nb_digits_little_succ (d : Decimal.uint) :
  (Decimal.nb_digits (Decimal.Little.succ d) <= S (Decimal.nb_digits d))%nat.
Proof.
  induction d; cbn [Decimal.Little.succ Decimal.nb_digits]; lia.
Qed.

Lemma nb_digits_to_lu (n : N) :
  (2 <= n)%N ->
  (Decimal.nb_digits (DecimalPos.Unsigned.to_lu n) + 1 <= N.to_nat n)%nat.
Proof.
  induction n as [|n IH] using N.peano_ind; intros Hn; [lia|].
  destruct (N.eq_dec n 1) as [->|Hne]; [cbn; lia|].
  rewrite DecimalPos.Unsigned.to_lu_succ.
  pose proof (nb_digits_little_succ (DecimalPos.Unsigned.to_lu n)).
  specialize (IH ltac:(lia)). lia.
Qed.

Lemma length_string_of_uint (u : Decimal.uint) :
  List.length (list_ascii_of_string (NilEmpty.string_of_uint u)) = Decimal.nb_digits u.
Proof.
  induction u; cbn [NilEmpty.string_of_uint list_ascii_of_string List.length
                    Decimal.nb_digits]; congruence.
Qed.

(** The decimal numeral of a count of at least 2 has fewer digits than the
    count. *)
Lemma length_str_of_int (n : Z) :
  2 <= n -> Z.of_nat (List.length (str_of_int n)) + 1 <= n.
Proof.
  intros Hn. destruct n as [|p|p]; try lia.
  unfold str_of_int. cbn [Z.to_int NilZero.string_of_int].
  assert (Hnil : Pos.to_uint p <> Decimal.Nil) by apply DecimalPos.Unsigned.to_uint_nonnil.
  replace (NilZero.string_of_uint (Pos.to_uint p))
    with (NilEmpty.string_of_uint (Pos.to_uint p))
    by (unfold NilZero.string_of_uint; destruct (Pos.to_uint p); [contradiction|reflexivity..]).
  rewrite length_string_of_uint.
  unfold Pos.to_uint. rewrite DecimalFacts.nb_digits_rev.
  pose proof (nb_digits_to_lu (Npos p) ltac:(lia)) as H.
  cbn [DecimalPos.Unsigned.to_lu] in H. lia.
Qed.

Lemma length_encode_char_segment (c : ascii) (n : Z) :
  1 <= n -> len (__encode_char_segment [c] n) <= n.
Proof.
  intros Hn. unfold __encode_char_segment, len.
  rewrite length_app. cbn [List.length].
  destruct (n >? 1) eqn:E.
  - pose proof (length_str_of_int n ltac:(lia)). lia.
  - cbn [List.length]. lia.
Qed.

Lemma length_encode_from (t : str) (c : ascii) (n : Z) :
  1 <= n -> len (encode_from t [c] n) <= n + len t.
Proof.
  revert c n. induction t as [|x t IH]; intros c n Hn.
  - unfold encode_from. cbn [fold_left app].
    pose proof (length_encode_char_segment c n Hn). unfold len in *. cbn [List.length]. lia.
  - assert (Hl : len (x :: t) = 1 + len t) by (unfold len; cbn [List.length]; lia).
    destruct (ascii_dec x c) as [->|Hx].
    + rewrite encode_from_same. specialize (IH c (n + 1) ltac:(lia)). lia.
    + rewrite encode_from_diff by congruence.
      pose proof (length_encode_char_segment c n Hn).
      specialize (IH x 1 ltac:(lia)).
      unfold len in *. rewrite length_app. lia.
Qed.

(** X7. The encoded text is never longer than the text, whatever the text
    holds. *)
Theorem encode_not_longer (text : str) : len (encode text) <= len text.
Proof.
  destruct text as [|c t]; [cbn; lia|].
  rewrite encode_first. pose proof (length_encode_from t c 1 ltac:(lia)).
  unfold len in *. cbn [List.length]. lia.
Qed.

(** ** Number of parity bits: the data sizes of each count *)

Lemma pow2_minus_mono (q r : Z) : 0 <= q <= r -> 2 ^ q - q <= 2 ^ r - r.
Proof.
  intros [Hq Hr]. replace r with (q + Z.of_nat (Z.to_nat (r - q))) by lia.
  induction (Z.to_nat (r - q)) as [|k IH]; [rewrite Z.add_0_r; lia|].
  rewrite Nat2Z.inj_succ. unfold Z.succ.
  replace (q + (Z.of_nat k + 1)) with (q + Z.of_nat k + 1) by lia.
  rewrite Z.pow_add_r, Z.pow_1_r by lia.
  pose proof (pow2_pos (q + Z.of_nat k) ltac:(lia)). lia.
Qed.

Lemma calculate_parity_bits_returns (m : Z) :
  m <= 1013 -> exists p, calculate_parity_bits m = Ok p.
Proof.
  intros Hm. unfold calculate_parity_bits.
  destruct (calculate_parity_bits_from m 0) as [p|e] eqn:E; [eauto|].
  apply calculate_parity_bits_from_raise in E; [|lia].
  destruct E as [_ E]. specialize (E 10 ltac:(lia)).
  change (2 ^ 10) with 1024 in E. lia.
Qed.

Lemma calculate_parity_bits_at_most_10 (m p : Z) :
  calculate_parity_bits m = Ok p -> p <= 10.
Proof.
  intros H. pose proof H as H'.
  apply calculate_parity_bits_from_ok in H as (H0 & H1 & H2).
  destruct (Z_le_gt_dec p 10) as [|Hgt]; [assumption|]. exfalso.
  pose proof (H2 10 ltac:(lia)) as H10. change (2 ^ 10) with 1024 in H10.
  assert (Hr : calculate_parity_bits_from m 0 = Raise too_many).
  { apply calculate_parity_bits_from_raise; [lia|].
    split; [reflexivity|]. intros q Hq.
    pose proof (pow2_small q Hq). lia. }
  unfold calculate_parity_bits in H'. congruence.
Qed.

(** X8. [calculate_parity_bits(m)] returns 0 exactly for [m <= 0], and
    returns [p] in 1..10 exactly for the data sizes
    [2^(p-1) - p < m <= 2^p - p - 1]: up to 1 data bit for 2 parity bits,
    4 for 3, 11 for 4, ..., 1013 for 10. *)
Theorem calculate_parity_bits_sizes (m p : Z) :
  calculate_parity_bits m = Ok p <->
  (p = 0 /\ m <= 0) \/ (1 <= p <= 10 /\ 2 ^ (p - 1) - p < m <= 2 ^ p - p - 1).
Proof.
  split.
  - intros H. pose proof (calculate_parity_bits_at_most_10 m p H) as Hle.
    apply calculate_parity_bits_from_ok in H as (H0 & H1 & H2).
    destruct (Z.eq_dec p 0) as [->|Hp].
    + left. change (2 ^ 0) with 1 in H1. lia.
    + right. pose proof (H2 (p - 1) ltac:(lia)) as Hprev. lia.
  - intros [[-> Hm]|[Hp Hm]].
    + unfold calculate_parity_bits. simp calculate_parity_bits_from.
      destruct (Z_lt_dec (2 ^ 0) (m + 0 + 1)) as [Hlt|]; [|reflexivity].
      change (2 ^ 0) with 1 in Hlt. lia.
    + pose proof (pow2_small p ltac:(lia)) as Hs.
      destruct (calculate_parity_bits_returns m ltac:(lia)) as [p' Hp'].
      rewrite Hp'. f_equal.
      apply calculate_parity_bits_from_ok in Hp' as (H0 & H1 & H2).
      destruct (Z.lt_trichotomy p' p) as [Hlt|[Heq|Hgt]]; [|exact Heq|].
      * pose proof (pow2_minus_mono p' (p - 1) ltac:(lia)). lia.
      * pose proof (H2 p ltac:(lia)). lia.
Qed.

(** Hamming(7,4), Hamming(15,11) and Hamming(255,247). *)
Lemma calculate_parity_bits_sizes_witness :
  calculate_parity_bits 4 = Ok 3 /\ calculate_parity_bits 11 = Ok 4
  /\ calculate_parity_bits 247 = Ok 8.
Proof.
  split; [|split].
  - apply (proj2 (calculate_parity_bits_sizes 4 3)). right. cbn. lia.
  - apply (proj2 (calculate_parity_bits_sizes 11 4)). right. cbn. lia.
  - apply (proj2 (calculate_parity_bits_sizes 247 8)). right. cbn. lia.
Defined.

(** X9. More data never takes fewer parity bits, and the count returned
    lies in 0..10. *)
Theorem calculate_parity_bits_monotone (m m' p p' : Z) :
  m <= m' ->
  calculate_parity_bits m = Ok p -> calculate_parity_bits m' = Ok p' ->
  0 <= p <= p' /\ p' <= 10.
Proof.
  intros Hm H H'.
  pose proof (calculate_parity_bits_at_most_10 m' p' H') as Hsize.
  apply calculate_parity_bits_from_ok in H as (H0 & H1 & H2).
  apply calculate_parity_bits_from_ok in H' as (H0' & H1' & H2').
  split; [|lia]. split; [lia|].
  destruct (Z_le_gt_dec p p') as [|Hgt]; [assumption|].
  pose proof (H2 p' ltac:(lia)). lia.
Qed.

Lemma calculate_parity_bits_monotone_witness : 0 <= 3 <= 4 /\ 4 <= 10.
Proof.
  apply (calculate_parity_bits_monotone 4 5 3 4); [lia|reflexivity|reflexivity].
Defined.

(** ** Placing and removing the parity places *)

(** X10. For any string [data], bits or not, and
    [p = calculate_parity_bits(len(data))]: [position_parity_bits] returns
    a string of length [len(data) + p] from which [remove_parity_bits]
    returns [data]. *)
Theorem position_remove_roundtrip (data : str) (p : Z) :
  calculate_parity_bits (len data) = Ok p ->
  exists code,
    position_parity_bits data p = Ok code /\
    len code = len data + p /\
    remove_parity_bits code p = Ok data.
Proof.
  intros Hp. apply parity_count_facts in Hp as (Hp0 & Hfit & Hmin & Hpow).
  destruct (position_parity_bits_spec data p Hp0 Hmin Hfit)
    as (code & Hpos & Hlen & Hdata & _ & _).
  exists code. split; [exact Hpos|]. split; [exact Hlen|].
  rewrite remove_parity_bits_spec by lia. rewrite Hdata. reflexivity.
Qed.

Lemma position_remove_roundtrip_witness :
  exists code,
    position_parity_bits (lit "hello, world") 5 = Ok code /\
    len code = len (lit "hello, world") + 5 /\
    remove_parity_bits code 5 = Ok (lit "hello, world").
Proof.
  apply (position_remove_roundtrip (lit "hello, world") 5). reflexivity.
Defined.

Lemma getitem_raises (t : str) (i : Z) (e : exn) :
  getitem t i = Raise e -> e = IndexError.
Proof.
  unfold getitem. destruct (_ && _); [|intros [= <-]; reflexivity].
  destruct (nth_error t _); [discriminate|intros [= <-]; reflexivity].
Qed.

Lemma getitem_in (t : str) (i : Z) (c : ascii) : getitem t i = Ok c -> In c t.
Proof.
  unfold getitem. destruct (_ && _); [|discriminate].
  destruct (nth_error t _) eqn:E; [|discriminate].
  intros [= <-]. eapply nth_error_In. exact E.
Qed.

Lemma position_loop_shape (data : str) (positions : list Z) (j k : Z) (result : str) :
  match for_each (position_step data) positions (j, k, result) with
  | Ok (_, _, result') =>
      List.length result' = (List.length result + List.length positions)%nat /\
      (forall c, In c result' -> In c result \/ c = "0"%char \/ In c data)
  | Raise e => e = IndexError
  end.
Proof.
  revert j k result.
  induction positions as [|i positions IH]; intros j k result; cbn [for_each].
  - split; [cbn [List.length]; lia|]. intros c Hc. left. exact Hc.
  - unfold position_step at 1. destruct (i =? 2 ^ j); cbn [bind].
    + specialize (IH (j + 1) k (result ++ ["0"%char])).
      destruct (for_each _ _ _) as [[[j' k'] result']|e]; [|exact IH].
      destruct IH as [Hlen Hin]. split.
      * rewrite Hlen, length_app. cbn [List.length]. lia.
      * intros c Hc. destruct (Hin c Hc) as [H|H]; [|right; exact H].
        apply in_app_or in H as [H|[<-|[]]]; [left; exact H|right; left; reflexivity].
    + destruct (getitem data (- k)) as [c0|e] eqn:G; cbn [bind].
      2:{ eapply getitem_raises. exact G. }
      specialize (IH j (k + 1) (result ++ [c0])).
      destruct (for_each _ _ _) as [[[j' k'] result']|e]; [|exact IH].
      destruct IH as [Hlen Hin]. split.
      * rewrite Hlen, length_app. cbn [List.length]. lia.
      * intros c Hc. destruct (Hin c Hc) as [H|H]; [|right; exact H].
        apply in_app_or in H as [H|[<-|[]]]; [left; exact H|].
        right; right. eapply getitem_in. exact G.
Qed.

(** X11. For any [data] and any [p], when [position_parity_bits] returns,
    the result has [len(data) + p] characters (none when that is
    negative), each of them [0] or a character of [data]; and the only
    exception it raises is [IndexError]. *)
Theorem position_parity_bits_shape (data : str) (p : Z) :
  match position_parity_bits data p with
  | Ok code =>
      len code = Z.max 0 (len data + p) /\
      (forall c, In c code -> c = "0"%char \/ In c data)
  | Raise e => e = IndexError
  end.
Proof.
  unfold position_parity_bits.
  pose proof (position_loop_shape data (range 1 (len data + p + 1)) 0 1 []) as H.
  destruct (for_each _ _ _) as [[[j k] result]|e]; cbn [bind]; [|exact H].
  destruct H as [Hlen Hin]. split.
  - unfold len. rewrite length_rev, Hlen, length_range. cbn [List.length]. unfold len. lia.
  - intros c Hc. apply in_rev in Hc. destruct (Hin c Hc) as [[]|H]. exact H.
Qed.

(** Too many parity places make the data run out; too few leave data out
    without an exception. *)
Example position_parity_bits_wrong_count :
  position_parity_bits (lit "1") 4 = Raise IndexError /\
  position_parity_bits (lit "1101") 0 = Ok (lit "0100").
Proof. split; vm_compute; reflexivity. Qed.

(** ** Computing the parity bits of any word *)

Lemma parity_place_dec (p j : Z) :
  (exists i, 0 <= i < p /\ j = 2 ^ i) \/ (forall i, 0 <= i < p -> j <> 2 ^ i).
Proof.
  destruct (is_power_of_two j) eqn:E.
  - apply is_power_of_two_log in E as [E Hl].
    destruct (Z_lt_ge_dec (Z.log2 j) p) as [Hlt|Hge].
    + left. exists (Z.log2 j). split; [lia|exact E].
    + right. intros i Hi Hj. rewrite Hj in Hge.
      rewrite Z.log2_pow2 in Hge by lia. lia.
  - right. intros i Hi Hj. rewrite Hj, is_power_of_two_pow in E by lia.
    discriminate E.
Qed.

(** [calculate_parity_values] on any bit string long enough to hold the
    parity places [2^i], [i < p]. *)
Lemma calculate_parity_values_general (code : str) (p : Z) :
  bit_string code = true ->
  (forall i, 0 <= i < p -> 2 ^ i <= len code) ->
  exists code',
    calculate_parity_values code p = Ok code' /\
    bit_string code' = true /\ len code' = len code /\
    (forall j, 1 <= j <= len code -> (forall i, 0 <= i < p -> j <> 2 ^ i) ->
               char_at code' j = char_at code j) /\
    (forall i, 0 <= i < p -> bit_at code' (2 ^ i) = parity_sum code i) /\
    (forall i, 0 <= i < p -> parity_sum code' i = bit_at code (2 ^ i)).
Proof.
  intros Hb Hpow.
  destruct (calculate_parity_values_loop (len code) (Z.to_nat p) 0 code Hb eq_refl)
    as (code' & Hrun & Hb' & Hlen & Hsame & Hpar); [lia| |].
  { intros i Hi. apply Hpow. lia. }
  assert (Hr : range 0 (0 + Z.of_nat (Z.to_nat p)) = range 0 p).
  { destruct (Z_le_gt_dec p 0); [rewrite !range_nil by lia; reflexivity|].
    f_equal. lia. }
  rewrite Hr in Hrun.
  exists code'. split; [exact Hrun|]. split; [exact Hb'|]. split; [exact Hlen|].
  split; [|split].
  - intros j Hj Hnot. apply Hsame; [exact Hj|]. intros i Hi. apply Hnot. lia.
  - intros i Hi. apply Hpar. lia.
  - intros i Hi.
    assert (Hq : 1 <= 2 ^ i <= len code).
    { split; [apply pow2_pos; lia|apply Hpow; exact Hi]. }
    unfold parity_sum. rewrite Hlen.
    rewrite (xor_bits_update (bit_at code) _ i (2 ^ i)).
    + fold (parity_sum code i).
      rewrite covers_power, Z.eqb_refl by lia.
      rewrite Hpar by lia.
      rewrite (Z.lxor_comm (bit_at code (2 ^ i))), <- Z.lxor_assoc.
      rewrite Z.lxor_nilpotent. apply Z.lxor_0_l.
    + apply NoDup_range.
    + apply in_range. lia.
    + intros j Hj Hne Hc. apply in_range in Hj. unfold bit_at.
      rewrite Hsame; [reflexivity|lia|].
      intros t Ht ->. rewrite covers_power in Hc by lia.
      apply Z.eqb_eq in Hc. subst t. contradiction.
Qed.

(** X12. For any bit string long enough to hold the parity places and any
    [p], [calculate_parity_values] returns a bit string of the same length
    whose parity sums are the bits that stood in the parity places of the
    input; so when those places held zeros the result passes
    [detect_correct_error] unchanged. *)
Theorem calculate_parity_values_sums (code : str) (p : Z) :
  bit_string code = true ->
  (forall i, 0 <= i < p -> 2 ^ i <= len code) ->
  exists code',
    calculate_parity_values code p = Ok code' /\
    bit_string code' = true /\ len code' = len code /\
    (forall i, 0 <= i < p -> parity_sum code' i = bit_at code (2 ^ i)) /\
    ((forall i, 0 <= i < p -> bit_at code (2 ^ i) = 0) ->
     detect_correct_error code' p = Ok code').
Proof.
  intros Hb Hpow.
  destruct (calculate_parity_values_general code p Hb Hpow)
    as (code' & Hrun & Hb' & Hlen & _ & _ & Hsum).
  exists code'. repeat (split; [assumption|]).
  intros Hz. apply detect_correct_error_clean; [assumption|].
  intros i Hi. rewrite Hsum by assumption. apply Hz. assumption.
Qed.

(** A word of eight bits with four parity places, one more than its four
    data bits need. *)
Lemma calculate_parity_values_sums_witness :
  exists code',
    calculate_parity_values (lit "10001100") 4 = Ok code' /\
    bit_string code' = true /\ len code' = len (lit "10001100") /\
    (forall i, 0 <= i < 4 -> parity_sum code' i = bit_at (lit "10001100") (2 ^ i)) /\
    ((forall i, 0 <= i < 4 -> bit_at (lit "10001100") (2 ^ i) = 0) ->
     detect_correct_error code' 4 = Ok code').
Proof.
  apply (calculate_parity_values_sums (lit "10001100") 4); [reflexivity|].
  intros i Hi. assert (E : i = 0 \/ i = 1 \/ i = 2 \/ i = 3) by lia.
  destruct E as [-> | [-> | [-> | ->]]]; vm_compute; discriminate.
Defined.

Lemma str_ext_char_at (a b : str) :
  len a = len b ->
  (forall j, 1 <= j <= len a -> char_at a j = char_at b j) ->
  a = b.
Proof.
  intros Hlen H. apply (nth_ext a b "0"%char "0"%char).
  - unfold len in Hlen. lia.
  - intros k Hk. specialize (H (len a - Z.of_nat k) ltac:(unfold len; lia)).
    unfold char_at in H. rewrite <- Hlen in H.
    replace (Z.to_nat (len a - (len a - Z.of_nat k))) with k in H by lia.
    exact H.
Qed.

Lemma bit_of_inj (c d : ascii) :
  is_bit c = true -> is_bit d = true -> bit_of c = bit_of d -> c = d.
Proof.
  intros Hc Hd. destruct (is_bit_cases c Hc) as [-> | ->],
    (is_bit_cases d Hd) as [-> | ->]; cbn; intros E; try reflexivity; discriminate E.
Qed.

(** X13. Applying [calculate_parity_values] twice gives the word back: the
    second pass finds in each parity sum the bit the first pass replaced. *)
Theorem calculate_parity_values_twice (code : str) (p : Z) :
  bit_string code = true ->
  (forall i, 0 <= i < p -> 2 ^ i <= len code) ->
  (code' <- calculate_parity_values code p ;; calculate_parity_values code' p)
  = Ok code.
Proof.
  intros Hb Hpow.
  destruct (calculate_parity_values_general code p Hb Hpow)
    as (c1 & Hrun1 & Hb1 & Hlen1 & Hsame1 & Hpar1 & Hsum1).
  destruct (calculate_parity_values_general c1 p Hb1)
    as (c2 & Hrun2 & Hb2 & Hlen2 & Hsame2 & Hpar2 & _).
  { intros i Hi. rewrite Hlen1. apply Hpow. exact Hi. }
  rewrite Hrun1. cbn [bind]. rewrite Hrun2. f_equal.
  apply str_ext_char_at; [lia|].
  intros j Hj. rewrite Hlen2, Hlen1 in Hj.
  destruct (parity_place_dec p j) as [(i & Hi & ->)|Hnot].
  - apply bit_of_inj; try (apply bit_string_nth; assumption).
    fold (bit_at c2 (2 ^ i)). fold (bit_at code (2 ^ i)).
    rewrite Hpar2, Hsum1 by assumption. reflexivity.
  - rewrite Hsame2 by (try rewrite Hlen1; assumption).
    apply Hsame1; assumption.
Qed.

Lemma calculate_parity_values_twice_witness :
  (code' <- calculate_parity_values (lit "1110110") 3 ;;
   calculate_parity_values code' 3) = Ok (lit "1110110").
Proof.
  apply (calculate_parity_values_twice (lit "1110110") 3); [reflexivity|].
  intros i Hi. assert (E : i = 0 \/ i = 1 \/ i = 2) by lia.
  destruct E as [-> | [-> | ->]]; vm_compute; discriminate.
Defined.

(** ** Errors that are not single *)

(** Whatever index [flip_at] is given, when it returns on a non-empty bit
    string the result is either twice as long or the input with one bit
    flipped. *)
Lemma flip_at_shape (code : str) (i : Z) (r : str) :
  bit_string code = true -> flip_at code i = Ok r ->
  (List.length r = (2 * List.length code)%nat /\ (1 <= List.length code)%nat) \/
  exists k, (k < List.length code)%nat /\
            r = replace_at code k (flip_char (nth k code "0"%char)).
Proof.
  intros Hb Hr. destruct (Z_lt_ge_dec i 0) as [Hneg|Hpos].
  - unfold flip_at, getitem in Hr.
    replace (i <? 0) with true in Hr by (symmetry; apply Z.ltb_lt; lia).
    destruct ((0 <=? i + len code) && (i + len code <? len code)) eqn:E;
      [|discriminate Hr].
    apply andb_true_iff in E as [E1 E2]. apply Z.leb_le in E1.
    set (k := Z.to_nat (i + len code)) in *.
    assert (Hk : (k < List.length code)%nat) by (unfold len in *; lia).
    rewrite (nth_error_nth' code "0"%char Hk) in Hr. cbn [bind] in Hr.
    rewrite int_of_bit in Hr by (apply bit_string_nth; assumption).
    cbn [bind] in Hr.
    rewrite str_of_flipped_bit in Hr by (apply bit_string_nth; assumption).
    injection Hr as <-.
    assert (Hto : slice_to code i = firstn k code).
    { unfold slice_to, clamp.
      replace (i <? 0) with true by (symmetry; apply Z.ltb_lt; lia).
      f_equal. unfold k. lia. }
    rewrite Hto.
    destruct (Z.eq_dec i (-1)) as [->|Hne].
    + left. change (-1 + 1) with 0.
      assert (Hfrom : slice_from code 0 = code).
      { unfold slice_from, clamp. change (0 <? 0) with false. cbv iota.
        replace (Z.to_nat (Z.min (Z.max 0 0) (len code))) with 0%nat by lia.
        reflexivity. }
      rewrite Hfrom, !length_app, length_firstn. cbn [List.length].
      unfold k, len in *. lia.
    + right. exists k. split; [exact Hk|].
      unfold replace_at, slice_from, clamp.
      replace (i + 1 <? 0) with true by (symmetry; apply Z.ltb_lt; lia).
      replace (Z.to_nat (Z.min (Z.max 0 (i + 1 + len code)) (len code)))
        with (S k) by (unfold k; lia).
      reflexivity.
  - right. exists (Z.to_nat i).
    assert (Hi : i < len code).
    { destruct (Z_lt_ge_dec i (len code)) as [|Hge]; [assumption|].
      unfold flip_at, getitem in Hr.
      replace (i <? 0) with false in Hr by (symmetry; apply Z.ltb_ge; lia).
      replace (i <? len code) with false in Hr by (symmetry; apply Z.ltb_ge; lia).
      rewrite andb_false_r in Hr. discriminate Hr. }
    rewrite flip_at_index in Hr by (assumption || lia).
    injection Hr as <-. split; [unfold len in *; lia|reflexivity].
Qed.

Lemma lxor_lt_pow2 (a b p : Z) :
  0 < a < 2 ^ p -> 0 < b < 2 ^ p -> 0 <= Z.lxor a b < 2 ^ p.
Proof.
  intros Ha Hb.
  assert (Hn : 0 <= Z.lxor a b) by (apply Z.lxor_nonneg; lia).
  split; [exact Hn|].
  destruct (Z.eq_dec (Z.lxor a b) 0) as [->|Hne]; [lia|].
  apply Z.log2_lt_pow2; [lia|].
  pose proof (Z.log2_lxor a b ltac:(lia) ltac:(lia)) as Hl.
  assert (Z.log2 a < p) by (apply Z.log2_lt_pow2; lia).
  assert (Z.log2 b < p) by (apply Z.log2_lt_pow2; lia).
  lia.
Qed.

Lemma b2z_lxor (x y : bool) : Z.lxor (Z.b2z x) (Z.b2z y) = Z.b2z (xorb x y).
Proof. destruct x, y; reflexivity. Qed.

(** X14. Two flipped bits are never repaired: the error position computed
    is the XOR of the two positions, which is neither zero nor one of
    them, and whatever [detect_correct_error] then does, it does not
    return the code word that was sent. *)
Theorem double_flip_not_corrected (data : str) (p k1 k2 : Z) :
  bit_string data = true -> calculate_parity_bits (len data) = Ok p ->
  0 <= k1 < len data + p -> 0 <= k2 < len data + p -> k1 <> k2 ->
  exists code0 code r1 r2,
    position_parity_bits data p = Ok code0 /\
    calculate_parity_values code0 p = Ok code /\
    add_noise code k1 = Ok r1 /\ add_noise r1 k2 = Ok r2 /\
    let q1 := len code - k1 in
    let q2 := len code - k2 in
    error_position r2 p = Ok (Z.lxor q1 q2) /\
    Z.lxor q1 q2 <> 0 /\ Z.lxor q1 q2 <> q1 /\ Z.lxor q1 q2 <> q2 /\
    detect_correct_error r2 p <> Ok code.
Proof.
  intros Hb Hp Hk1 Hk2 Hne.
  destruct (hamming_codeword data p Hb Hp)
    as (code0 & code & Hpos & Hrun & Hbc & Hlen & Hlt & Hdata & Hpar & Hzero).
  apply parity_count_facts in Hp as (Hp0 & Hfit & Hmin & Hpow).
  set (n1 := Z.to_nat k1). set (n2 := Z.to_nat k2).
  set (r1 := replace_at code n1 (flip_char (nth n1 code "0"%char))).
  set (r2 := replace_at r1 n2 (flip_char (nth n2 r1 "0"%char))).
  assert (Hn1 : (n1 < List.length code)%nat) by (unfold len in *; lia).
  assert (Hn2 : (n2 < List.length code)%nat) by (unfold len in *; lia).
  assert (Hb1 : bit_string r1 = true)
    by (apply bit_string_replace_at; [assumption|apply is_bit_flip_char]).
  assert (Hl1 : List.length r1 = List.length code) by (apply length_replace_at; assumption).
  assert (Hb2 : bit_string r2 = true)
    by (apply bit_string_replace_at; [assumption|apply is_bit_flip_char]).
  assert (Hl2 : List.length r2 = List.length code)
    by (unfold r2; rewrite length_replace_at; lia).
  assert (Hlen1 : len r1 = len code) by (unfold len; lia).
  set (q1 := len code - k1). set (q2 := len code - k2).
  assert (Hq1 : 1 <= q1 <= len code) by lia.
  assert (Hq2 : 1 <= q2 <= len code) by lia.
  assert (Hsum : forall i, 0 <= i < p ->
            parity_sum r2 i = Z.b2z (Z.testbit (Z.lxor q1 q2) i)).
  { intros i Hi.
    assert (E2 : r2 = replace_at r1 (Z.to_nat (len r1 - q2)) (flip_char (char_at r1 q2))).
    { unfold r2, char_at. rewrite Hlen1.
      replace (Z.to_nat (len code - q2)) with n2 by lia. reflexivity. }
    assert (E1 : r1 = replace_at code (Z.to_nat (len code - q1)) (flip_char (char_at code q1))).
    { unfold r1, char_at.
      replace (Z.to_nat (len code - q1)) with n1 by lia. reflexivity. }
    rewrite E2, parity_sum_flip by (assumption || lia).
    rewrite E1, parity_sum_flip by (assumption || lia).
    rewrite Hzero by lia. rewrite Z.lxor_0_l, b2z_lxor, Z.lxor_spec. reflexivity. }
  assert (Hx : 0 <= Z.lxor q1 q2 < 2 ^ p) by (apply lxor_lt_pow2; lia).
  assert (Herr : error_position r2 p = Ok (Z.lxor q1 q2)).
  { rewrite error_position_bits by assumption. f_equal.
    rewrite (syndrome_testbit r2 (Z.lxor q1 q2)).
    - replace (Z.of_nat (Z.to_nat p)) with p by lia. apply Z.mod_small. exact Hx.
    - intros i Hi. apply Hsum. lia. }
  assert (Hnz : Z.lxor q1 q2 <> 0) by (intros E; apply Z.lxor_eq in E; lia).
  assert (Hd1 : nth n1 r2 "0"%char <> nth n1 code "0"%char).
  { unfold r2. rewrite nth_replace_at by lia.
    replace (Nat.eqb n1 n2) with false by (symmetry; apply Nat.eqb_neq; lia).
    unfold r1. rewrite nth_replace_at, Nat.eqb_refl by assumption.
    assert (Hc : is_bit (nth n1 code "0"%char) = true) by (apply bit_string_nth; assumption).
    destruct (is_bit_cases _ Hc) as [-> | ->]; discriminate. }
  assert (Hd2 : nth n2 r2 "0"%char <> nth n2 code "0"%char).
  { unfold r2. rewrite nth_replace_at, Nat.eqb_refl by lia.
    unfold r1. rewrite nth_replace_at by assumption.
    replace (Nat.eqb n2 n1) with false by (symmetry; apply Nat.eqb_neq; lia).
    assert (Hc : is_bit (nth n2 code "0"%char) = true) by (apply bit_string_nth; assumption).
    destruct (is_bit_cases _ Hc) as [-> | ->]; discriminate. }
  exists code0, code, r1, r2.
  split; [exact Hpos|]. split; [exact Hrun|]. split; [|split].
  - unfold add_noise. apply flip_at_index; [assumption|lia].
  - unfold add_noise. apply flip_at_index; [assumption|lia].
  - cbv zeta. fold q1 q2. split; [exact Herr|]. split; [exact Hnz|].
    split; [|split].
    + intros E. assert (E' : Z.lxor q1 (Z.lxor q1 q2) = Z.lxor q1 q1) by congruence.
      rewrite <- Z.lxor_assoc, Z.lxor_nilpotent, Z.lxor_0_l in E'. lia.
    + intros E. assert (E' : Z.lxor (Z.lxor q1 q2) q2 = Z.lxor q2 q2) by congruence.
      rewrite Z.lxor_assoc, Z.lxor_nilpotent, Z.lxor_0_r in E'. lia.
    + unfold detect_correct_error. rewrite Herr. cbn [bind].
      replace (Z.lxor q1 q2 =? 0) with false by (symmetry; apply Z.eqb_neq; exact Hnz).
      cbn [negb]. intros Hf.
      destruct (flip_at_shape r2 _ code Hb2 Hf) as [[Hlen2 Hpos2]|(k & Hk & Hr)].
      * lia.
      * rewrite Hl2 in Hk. destruct (Nat.eq_dec k n1) as [->|Hkn].
        -- pose proof (f_equal (fun l => nth n2 l "0"%char) Hr) as Hn.
           cbv beta in Hn. rewrite nth_replace_at in Hn by lia.
           replace (Nat.eqb n2 n1) with false in Hn
             by (symmetry; apply Nat.eqb_neq; lia).
           apply Hd2. symmetry. exact Hn.
        -- pose proof (f_equal (fun l => nth n1 l "0"%char) Hr) as Hn.
           cbv beta in Hn. rewrite nth_replace_at in Hn by lia.
           replace (Nat.eqb n1 k) with false in Hn
             by (symmetry; apply Nat.eqb_neq; lia).
           apply Hd1. symmetry. exact Hn.
Qed.

(** The code word 1100110 with its bits at indices 2 and 5 flipped. *)
Lemma double_flip_not_corrected_witness :
  exists code0 code r1 r2,
    position_parity_bits (lit "1101") 3 = Ok code0 /\
    calculate_parity_values code0 3 = Ok code /\
    add_noise code 2 = Ok r1 /\ add_noise r1 5 = Ok r2 /\
    let q1 := len code - 2 in
    let q2 := len code - 5 in
    error_position r2 3 = Ok (Z.lxor q1 q2) /\
    Z.lxor q1 q2 <> 0 /\ Z.lxor q1 q2 <> q1 /\ Z.lxor q1 q2 <> q2 /\
    detect_correct_error r2 3 <> Ok code.
Proof.
  apply (double_flip_not_corrected (lit "1101") 3 2 5);
    [reflexivity|reflexivity|cbn; lia|cbn; lia|discriminate].
Defined.

(** ** What [detect_correct_error] returns on any bit string *)

(** X15. What [detect_correct_error] returns passes its own check: for a
    bit string whose error position does not exceed its length, the
    corrected word has error position 0 and a second call returns it
    unchanged. *)
Theorem detect_correct_error_idempotent (code : str) (p e : Z) :
  bit_string code = true -> error_position code p = Ok e -> e <= len code ->
  exists corrected,
    detect_correct_error code p = Ok corrected /\
    error_position corrected p = Ok 0 /\
    detect_correct_error corrected p = Ok corrected.
Proof.
  intros Hb He Hle.
  rewrite error_position_bits in He by assumption. injection He as He.
  pose proof (syndrome_nonneg code (Z.to_nat p)) as Hn.
  assert (Hsum : forall i, 0 <= i < p -> Z.b2z (Z.testbit e i) = parity_sum code i).
  { intros i Hi. rewrite <- He. apply syndrome_bits. lia. }
  unfold detect_correct_error at 1.
  rewrite error_position_bits by assumption. rewrite He. cbn [bind].
  destruct (Z.eqb_spec e 0) as [E0|Hne]; cbn [negb].
  - exists code. split; [reflexivity|].
    apply detect_correct_error_clean; [assumption|].
    intros i Hi. rewrite <- Hsum by assumption. rewrite E0, Z.testbit_0_l. reflexivity.
  - rewrite flip_at_index by (assumption || lia).
    eexists. split; [reflexivity|].
    apply detect_correct_error_clean.
    + apply bit_string_replace_at; [assumption|apply is_bit_flip_char].
    + intros i Hi. fold (char_at code e).
      rewrite parity_sum_flip by (assumption || lia).
      rewrite Hsum by assumption. apply Z.lxor_nilpotent.
Qed.

(** A word that is no code word: 1011 with two parity places. *)
Lemma detect_correct_error_idempotent_witness :
  exists corrected,
    detect_correct_error (lit "1011") 2 = Ok corrected /\
    error_position corrected 2 = Ok 0 /\
    detect_correct_error corrected 2 = Ok corrected.
Proof.
  apply (detect_correct_error_idempotent (lit "1011") 2 3);
    [reflexivity|reflexivity|cbn; lia].
Defined.

(** X16. The error position of a bit string is below [2^p]; so on a bit
    string of at least [2^p - 1] characters [detect_correct_error] always
    returns a bit string of the same length. *)
Theorem detect_correct_error_full_length (code : str) (p : Z) :
  bit_string code = true -> 0 <= p -> 2 ^ p - 1 <= len code ->
  exists e corrected,
    error_position code p = Ok e /\ 0 <= e < 2 ^ p /\
    detect_correct_error code p = Ok corrected /\
    List.length corrected = List.length code /\
    bit_string corrected = true.
Proof.
  intros Hb Hp Hlen.
  pose proof (syndrome_nonneg code (Z.to_nat p)) as Hn.
  pose proof (syndrome_lt code (Z.to_nat p)) as Hlt.
  replace (Z.of_nat (Z.to_nat p)) with p in Hlt by lia.
  pose proof (error_position_bits code p Hb) as He.
  set (e := syndrome code (Z.to_nat p)) in *.
  exists e. unfold detect_correct_error. rewrite He. cbn [bind].
  destruct (Z.eqb_spec e 0) as [E0|Hne]; cbn [negb].
  - exists code. repeat split; try assumption; lia.
  - rewrite flip_at_index by (assumption || lia).
    eexists. split; [reflexivity|]. split; [lia|]. split; [reflexivity|]. split.
    + apply length_replace_at. unfold len in *. lia.
    + apply bit_string_replace_at; [assumption|apply is_bit_flip_char].
Qed.

Lemma detect_correct_error_full_length_witness :
  exists e corrected,
    error_position (lit "1111111") 3 = Ok e /\ 0 <= e < 2 ^ 3 /\
    detect_correct_error (lit "1111111") 3 = Ok corrected /\
    List.length corrected = List.length (lit "1111111") /\
    bit_string corrected = true.
Proof.
  apply (detect_correct_error_full_length (lit "1111111") 3);
    [reflexivity|lia|cbn; lia].
Defined.

(** X17. [add_noise] at an index of a bit string returns a bit string of
    the same length that differs at that index only, and a second
    [add_noise] at the same index gives the first string back. *)
Theorem add_noise_involutive (code : str) (noise_position : Z) :
  bit_string code = true -> 0 <= noise_position < len code ->
  exists received,
    add_noise code noise_position = Ok received /\
    List.length received = List.length code /\
    bit_string received = true /\
    (forall k, nth k received "0"%char <> nth k code "0"%char
               <-> k = Z.to_nat noise_position) /\
    add_noise received noise_position = Ok code.
Proof.
  intros Hb Hk. unfold add_noise.
  set (k0 := Z.to_nat noise_position).
  assert (Hk0 : (k0 < List.length code)%nat) by (unfold len in *; lia).
  assert (Hc : is_bit (nth k0 code "0"%char) = true) by (apply bit_string_nth; assumption).
  rewrite flip_at_index by assumption. fold k0.
  eexists. split; [reflexivity|].
  assert (Hbr : bit_string (replace_at code k0 (flip_char (nth k0 code "0"%char))) = true)
    by (apply bit_string_replace_at; [assumption|apply is_bit_flip_char]).
  split; [apply length_replace_at; assumption|]. split; [exact Hbr|]. split.
  - intros k. rewrite nth_replace_at by assumption.
    destruct (Nat.eqb_spec k k0) as [->|Hne].
    + split; [reflexivity|intros _].
      destruct (is_bit_cases _ Hc) as [-> | ->]; discriminate.
    + split; [intros H; contradiction H; reflexivity|intros E; contradiction].
  - rewrite flip_at_index by (try assumption; rewrite len_replace_at; assumption).
    fold k0. rewrite nth_replace_at, Nat.eqb_refl by assumption.
    rewrite replace_at_twice by assumption.
    rewrite flip_char_involutive by assumption.
    rewrite replace_at_same by assumption. reflexivity.
Qed.

Lemma add_noise_involutive_witness :
  exists received,
    add_noise (lit "1100110") 2 = Ok received /\
    List.length received = List.length (lit "1100110") /\
    bit_string received = true /\
    (forall k, nth k received "0"%char <> nth k (lit "1100110") "0"%char
               <-> k = Z.to_nat 2) /\
    add_noise received 2 = Ok (lit "1100110").
Proof.
  apply (add_noise_involutive (lit "1100110") 2); [reflexivity|cbn; lia].
Defined.

(** ** Key exchange: the eavesdropper *)

(** A loop over a range that leaves by [break] stops at the least element
    that passes the test. *)
Lemma find_range_least (f : Z -> bool) (lo hi x : Z) :
  find f (range lo hi) = Some x ->
  lo <= x < hi /\ f x = true /\ forall y, lo <= y < x -> f y = false.
Proof.
  remember (Z.to_nat (hi - lo)) as n eqn:Hn. revert lo Hn.
  induction n as [|n IH]; intros lo Hn.
  - rewrite range_nil by lia. discriminate.
  - rewrite range_cons by lia. cbn [find].
    destruct (f lo) eqn:E.
    + intros [= <-]. split; [lia|]. split; [exact E|]. intros y Hy. lia.
    + intros Hf. destruct (IH (lo + 1) ltac:(lia) Hf) as (Hx & Hfx & Hleast).
      split; [lia|]. split; [exact Hfx|].
      intros y Hy. destruct (Z.eq_dec y lo) as [->|]; [exact E|apply Hleast; lia].
Qed.

Lemma find_range_none (f : Z -> bool) (lo hi : Z) :
  find f (range lo hi) = None -> forall y, lo <= y < hi -> f y = false.
Proof.
  intros H y Hy. apply (find_none f (range lo hi) H). apply in_range. exact Hy.
Qed.

(** X19. When [derive_private_keys] prints a pair, its members are the
    least candidates of 1..999999 that reproduce the two outputs and the
    public key; when it prints nothing, no candidate passes the test of the
    outer loop or none passes the test of the inner one. *)
Theorem derive_private_keys_least (self : EavesdropData) :
  match derive_private_keys self with
  | Some (a, b) =>
      (1 <= a < 1000000 /\
       exchange_func self a None = a_output self /\
       exchange_func self a (Some (b_output self)) = public_key self /\
       forall y, 1 <= y < a -> a_candidate_ok self y = false) /\
      (1 <= b < 1000000 /\
       exchange_func self b None = b_output self /\
       exchange_func self b (Some (a_output self)) = public_key self /\
       forall y, 1 <= y < b -> b_candidate_ok self y = false)
  | None =>
      (forall y, 1 <= y < 1000000 -> a_candidate_ok self y = false) \/
      (forall y, 1 <= y < 1000000 -> b_candidate_ok self y = false)
  end.
Proof.
  unfold derive_private_keys.
  destruct (find (a_candidate_ok self) _) as [a|] eqn:Ea.
  - destruct (find (b_candidate_ok self) _) as [b|] eqn:Eb.
    + apply find_range_least in Ea as (Ha & Hfa & Hla).
      apply find_range_least in Eb as (Hb & Hfb & Hlb).
      unfold a_candidate_ok in Hfa. unfold b_candidate_ok in Hfb.
      apply andb_true_iff in Hfa as [Hfa1 Hfa2].
      apply andb_true_iff in Hfb as [Hfb1 Hfb2].
      apply Z.eqb_eq in Hfa1, Hfa2, Hfb1, Hfb2.
      repeat split; try assumption; lia.
    + right. apply find_range_none. exact Eb.
  - left. apply find_range_none. exact Ea.
Qed.

Lemma derive_private_keys_parts (self : EavesdropData) :
  derive_private_keys self =
  match find (a_candidate_ok self) (range 1 1000000),
        find (b_candidate_ok self) (range 1 1000000) with
  | Some a, Some b => Some (a, b)
  | _, _ => None
  end.
Proof.
  unfold derive_private_keys.
  destruct (find (a_candidate_ok self) _); [|reflexivity].
  destruct (find (b_candidate_ok self) _); reflexivity.
Qed.

Lemma generate_keys_inv {T : Type} (key_size entropy_a entropy_b : Z)
  (generation_time t : T) (a b ao bo pk : Z) :
  generate_keys key_size entropy_a entropy_b generation_time
  = Ok (a, b, ao, bo, pk, t) ->
  __generate_random_number key_size entropy_a = Ok a /\
  __generate_random_number key_size entropy_b = Ok b /\
  ao = __produce_exchange_function a generator_default prime_modulus_default /\
  bo = __produce_exchange_function b generator_default prime_modulus_default /\
  pk = __produce_exchange_function a bo prime_modulus_default /\
  pk = __produce_exchange_function b ao prime_modulus_default.
Proof.
  unfold generate_keys.
  destruct (__generate_random_number key_size entropy_a) as [a'|]; [|discriminate].
  destruct (__generate_random_number key_size entropy_b) as [b'|]; [|discriminate].
  cbn [bind]. unfold check_public_keys.
  destruct (_ =? _) eqn:E; cbn [negb]; [|discriminate].
  apply Z.eqb_eq in E. intros [= <- <- <- <- <- _].
  repeat split; try reflexivity. exact E.
Qed.

(** X20. For keys of at most six digits the eavesdropper always succeeds:
    run on the outputs and the public key that [generate_keys] returned,
    [derive_private_keys] prints a pair of exponents, none larger than the
    private key it stands for, that reproduce both outputs and the public
    key. *)
Theorem derive_private_keys_succeeds (T : Type) (key_size entropy_a entropy_b : Z)
  (generation_time t : T) (a b ao bo pk : Z) :
  1 <= key_size <= 6 ->
  generate_keys key_size entropy_a entropy_b generation_time
  = Ok (a, b, ao, bo, pk, t) ->
  exists a' b',
    derive_private_keys
      {| exchange_func := exchange_callable;
         a_output := ao; b_output := bo; public_key := pk |}
    = Some (a', b') /\
    1 <= a' <= a /\ 1 <= b' <= b /\
    exchange_callable a' None = ao /\ exchange_callable b' None = bo /\
    exchange_callable a' (Some bo) = pk /\ exchange_callable b' (Some ao) = pk.
Proof.
  intros Hk Hrun.
  apply generate_keys_inv in Hrun as (Ha & Hb & Hao & Hbo & Hpa & Hpb).
  apply generated_key_range in Ha as [_ Ha]. apply generated_key_range in Hb as [_ Hb].
  assert (Hlow : 0 < 10 ^ (key_size - 1)) by (apply Z.pow_pos_nonneg; lia).
  assert (Hhigh : 10 ^ key_size <= 1000000).
  { change 1000000 with (10 ^ 6). apply Z.pow_le_mono_r; lia. }
  set (self := {| exchange_func := exchange_callable;
                  a_output := ao; b_output := bo; public_key := pk |}).
  assert (Hoka : a_candidate_ok self a = true).
  { unfold a_candidate_ok, self, exchange_callable. cbn [exchange_func a_output b_output public_key].
    rewrite <- Hao, <- Hpa, !Z.eqb_refl. reflexivity. }
  assert (Hokb : b_candidate_ok self b = true).
  { unfold b_candidate_ok, self, exchange_callable. cbn [exchange_func a_output b_output public_key].
    rewrite <- Hbo, <- Hpb, !Z.eqb_refl. reflexivity. }
  pose proof (derive_private_keys_parts self) as Hparts.
  destruct (find (a_candidate_ok self) (range 1 1000000)) as [a'|] eqn:Ea.
  2:{ pose proof (find_range_none _ _ _ Ea a ltac:(lia)). congruence. }
  destruct (find (b_candidate_ok self) (range 1 1000000)) as [b'|] eqn:Eb.
  2:{ pose proof (find_range_none _ _ _ Eb b ltac:(lia)). congruence. }
  exists a', b'. split; [exact Hparts|].
  apply find_range_least in Ea as (Ha' & Hfa & Hla).
  apply find_range_least in Eb as (Hb' & Hfb & Hlb).
  assert (a' <= a).
  { destruct (Z_le_gt_dec a' a); [assumption|].
    specialize (Hla a ltac:(lia)). congruence. }
  assert (b' <= b).
  { destruct (Z_le_gt_dec b' b); [assumption|].
    specialize (Hlb b ltac:(lia)). congruence. }
  unfold a_candidate_ok in Hfa. unfold b_candidate_ok in Hfb.
  apply andb_true_iff in Hfa as [Hfa1 Hfa2].
  apply andb_true_iff in Hfb as [Hfb1 Hfb2].
  apply Z.eqb_eq in Hfa1, Hfa2, Hfb1, Hfb2.
  unfold self in Hfa1, Hfa2, Hfb1, Hfb2.
  cbn [exchange_func a_output b_output public_key] in Hfa1, Hfa2, Hfb1, Hfb2.
  repeat split; try assumption; lia.
Qed.

(** The run printed in the notebook: private keys 32 and 96. *)
Lemma derive_private_keys_succeeds_witness :
  exists a' b',
    derive_private_keys
      {| exchange_func := exchange_callable;
         a_output := 23201871; b_output := 38718244; public_key := 11973219 |}
    = Some (a', b') /\
    1 <= a' <= 32 /\ 1 <= b' <= 96 /\
    exchange_callable a' None = 23201871 /\ exchange_callable b' None = 38718244 /\
    exchange_callable a' (Some 38718244) = 11973219 /\
    exchange_callable b' (Some 23201871) = 11973219.
Proof.
  apply (derive_private_keys_succeeds unit 2 22 86 tt tt 32 96);
    [lia|vm_compute; reflexivity].
Defined.

(** X21. What [generate_keys] returns: both outputs and the public key are
    residues of the modulus, and the public key is the base raised to the
    product of the two private keys. *)
Theorem generate_keys_shared_secret (T : Type) (key_size entropy_a entropy_b : Z)
  (generation_time t : T) (a b ao bo pk : Z) :
  generate_keys key_size entropy_a entropy_b generation_time
  = Ok (a, b, ao, bo, pk, t) ->
  0 <= ao < prime_modulus_default /\
  0 <= bo < prime_modulus_default /\
  0 <= pk < prime_modulus_default /\
  pk = (generator_default ^ (a * b)) mod prime_modulus_default.
Proof.
  intros Hrun.
  apply generate_keys_inv in Hrun as (Ha & Hb & Hao & Hbo & Hpa & Hpb).
  apply generated_key_range in Ha as [Hk Ha]. apply generated_key_range in Hb as [_ Hb].
  assert (Hlow : 0 < 10 ^ (key_size - 1)) by (apply Z.pow_pos_nonneg; lia).
  assert (Hm : 0 < prime_modulus_default) by reflexivity.
  unfold __produce_exchange_function in *.
  split; [subst ao; apply Z.mod_pos_bound; exact Hm|].
  split; [subst bo; apply Z.mod_pos_bound; exact Hm|].
  split; [subst pk; apply Z.mod_pos_bound; exact Hm|].
  rewrite Hpb, Hao. rewrite <- Zpower_mod by exact Hm.
  rewrite <- Z.pow_mul_r by lia. reflexivity.
Qed.

Lemma generate_keys_shared_secret_witness :
  0 <= 23201871 < prime_modulus_default /\
  0 <= 38718244 < prime_modulus_default /\
  0 <= 11973219 < prime_modulus_default /\
  11973219 = (generator_default ^ (32 * 96)) mod prime_modulus_default.
Proof.
  apply (generate_keys_shared_secret unit 2 22 86 tt tt 32 96 23201871 38718244).
  vm_compute. reflexivity.
Defined.

(** ** [detect_correct_error] never raises on a bit string *)

Lemma parity_sum_beyond (code : str) (i : Z) :
  0 <= i -> len code < 2 ^ i -> parity_sum code i = 0.
Proof.
  intros Hi Hlen. unfold parity_sum.
  rewrite (xor_bits_ext (fun _ => 0) (bit_at code)).
  - induction (range 1 (len code + 1)) as [|j js IH]; cbn [xor_bits]; [reflexivity|].
    rewrite IH. destruct (covers i j); reflexivity.
  - intros j Hj Hc. apply in_range in Hj. exfalso.
    rewrite covers_testbit in Hc by assumption.
    assert (Hlt : j < 2 ^ i) by lia.
    assert (Hb : Z.testbit j i = false).
    { apply Z.bits_above_log2; [lia|]. apply Z.log2_lt_pow2; lia. }
    congruence.
Qed.

(** The error position of a bit string of [n >= 1] characters is below
    [2 * n], whatever the parity count. *)
Lemma syndrome_below_twice (code : str) (k : nat) :
  1 <= len code -> syndrome code k < 2 * len code.
Proof.
  intros Hn. induction k as [|k IH]; cbn [syndrome]; [lia|].
  destruct (Z_lt_ge_dec (len code) (2 ^ Z.of_nat k)) as [Hbig|Hsmall].
  - rewrite parity_sum_beyond by lia. lia.
  - pose proof (syndrome_lt code k). pose proof (parity_sum_range code (Z.of_nat k)).
    nia.
Qed.

Lemma flip_at_returns (code : str) (i : Z) :
  bit_string code = true -> - len code <= i < len code ->
  exists r, flip_at code i = Ok r.
Proof.
  intros Hb Hi. unfold flip_at, getitem.
  set (i' := if i <? 0 then i + len code else i).
  assert (Hi' : 0 <= i' < len code) by (unfold i'; destruct (Z.ltb_spec i 0); lia).
  replace (0 <=? i') with true by (symmetry; apply Z.leb_le; lia).
  replace (i' <? len code) with true by (symmetry; apply Z.ltb_lt; lia).
  cbn [andb]. rewrite (nth_error_nth' code "0"%char) by (unfold len in *; lia).
  cbn [bind]. rewrite int_of_bit by (apply bit_string_nth; assumption).
  cbn [bind]. eauto.
Qed.

(** X22. On a bit string [detect_correct_error] never raises, whatever
    [p]: it returns the string itself, the string with one bit flipped, or
    a string twice as long. *)
Theorem detect_correct_error_returns (code : str) (p : Z) :
  bit_string code = true ->
  exists r,
    detect_correct_error code p = Ok r /\
    (r = code \/
     (exists k, (k < List.length code)%nat /\
                r = replace_at code k (flip_char (nth k code "0"%char))) \/
     List.length r = (2 * List.length code)%nat).
Proof.
  intros Hb. unfold detect_correct_error.
  rewrite error_position_bits by assumption. cbn [bind].
  set (e := syndrome code (Z.to_nat p)).
  pose proof (syndrome_nonneg code (Z.to_nat p)) as Hn. fold e in Hn.
  destruct (Z.eqb_spec e 0) as [E0|Hne]; cbn [negb].
  - exists code. split; [reflexivity|left; reflexivity].
  - assert (Hlen : 1 <= len code).
    { destruct (Z_le_gt_dec 1 (len code)) as [|H0]; [assumption|]. exfalso.
      apply Hne. unfold e. apply syndrome_zero. intros i Hi.
      apply parity_sum_beyond; [lia|].
      pose proof (pow2_pos i ltac:(lia)). unfold len in *. lia. }
    pose proof (syndrome_below_twice code (Z.to_nat p) Hlen) as Hlt. fold e in Hlt.
    destruct (flip_at_returns code (len code - e) Hb ltac:(lia)) as [r Hr].
    exists r. split; [exact Hr|]. right.
    destruct (flip_at_shape code _ r Hb Hr) as [[H2 _]|Hk];
      [right; exact H2|left; exact Hk].
Qed.

Lemma detect_correct_error_returns_witness :
  exists r,
    detect_correct_error (lit "111111") 9 = Ok r /\
    (r = lit "111111" \/
     (exists k, (k < List.length (lit "111111"))%nat /\
                r = replace_at (lit "111111") k
                      (flip_char (nth k (lit "111111") "0"%char))) \/
     List.length r = (2 * List.length (lit "111111"))%nat).
Proof.
  apply (detect_correct_error_returns (lit "111111") 9). reflexivity.
Defined.
